(** * Virtual linker: candidate scanning, overlap resolution and exclusion

    A shallow embedding of the live-preview decoration builders of
    [src/linker/liveLinker.ts] and [src/glossary/liveLinker.ts], together
    with the properties of the scan loop, the overlap resolver, the
    exclusion filter and the view-update handler. *)

From stdpp Require Import base gmap list strings sorting pretty.

#[local] Set Warnings "-register-all".

(** ** JavaScript strings

    A JavaScript string is a sequence of UTF-16 code units.  Offsets into
    the document ([from], [to], the cursor) are JavaScript numbers holding
    integers and are modelled in [Z]; loop indices that only count upwards
    from zero are modelled in [nat]. *)
Module JS.

Definition jsstring := list Z.

(** Every code unit of a string lies in [0, 0xFFFF]. *)
Definition wf (s : jsstring) : Prop := Forall (λ u, (0 ≤ u < 65536)%Z) s.

Definition isHighSurrogate (u : Z) : bool :=
  bool_decide (0xD800 ≤ u)%Z && bool_decide (u ≤ 0xDBFF)%Z.
Definition isLowSurrogate (u : Z) : bool :=
  bool_decide (0xDC00 ≤ u)%Z && bool_decide (u ≤ 0xDFFF)%Z.

(** [String.prototype.codePointAt]: [None] is [undefined]. *)
Definition codePointAt (s : jsstring) (i : nat) : option Z :=
  match s !! i with
  | None => None
  | Some first =>
      if isHighSurrogate first then
        match s !! S i with
        | Some second =>
            if isLowSurrogate second
            then Some ((first - 0xD800) * 0x400 + (second - 0xDC00) + 0x10000)%Z
            else Some first
        | None => Some first
        end
      else Some first
  end.

(** [String.fromCodePoint]: [None] is the [RangeError] raised for
    [undefined] and for numbers outside [0, 0x10FFFF]. *)
Definition fromCodePoint (cp : option Z) : option jsstring :=
  match cp with
  | None => None
  | Some c =>
      if bool_decide (0 ≤ c)%Z && bool_decide (c ≤ 0x10FFFF)%Z then
        if bool_decide (c < 0x10000)%Z then Some [c]
        else Some [((c - 0x10000) `div` 0x400 + 0xD800)%Z;
                   ((c - 0x10000) `mod` 0x400 + 0xDC00)%Z]
      else None
  end.

(** [String.prototype.slice] with its clamping of negative and
    out-of-range indices. *)
Definition clampIndex (len k : Z) : Z :=
  if bool_decide (k < 0)%Z then Z.max (len + k) 0 else Z.min k len.
Definition slice (s : jsstring) (b e : Z) : jsstring :=
  let len := Z.of_nat (length s) in
  let b' := clampIndex len b in
  let e' := clampIndex len e in
  take (Z.to_nat (e' - b')) (drop (Z.to_nat b') s).

(** [String.prototype.startsWith] and [includes] (Obsidian's
    [contains]). *)
Fixpoint startsWith (s target : jsstring) : bool :=
  match target, s with
  | [], _ => true
  | _ :: _, [] => false
  | t :: target', u :: s' => bool_decide (t = u) && startsWith s' target'
  end.
Fixpoint contains (s target : jsstring) : bool :=
  startsWith s target ||
  match s with
  | [] => false
  | _ :: s' => contains s' target
  end.

(** String literals of the source, as code units. *)
Definition str (s : string) : jsstring :=
  (λ a, Z.of_nat (Ascii.nat_of_ascii a)) <$> String.list_ascii_of_string s.

(** The pieces a string is cut into when it is read one code point at a
    time. *)
Fixpoint codePoints (s : jsstring) : list jsstring :=
  match s with
  | [] => []
  | first :: rest =>
      match rest with
      | second :: rest' =>
          if isHighSurrogate first && isLowSurrogate second
          then [first; second] :: codePoints rest'
          else [first] :: codePoints rest
      | [] => [[first]]
      end
  end.

End JS.
Export JS.

(** ** Results of code that may throw *)
Inductive outcome (A : Type) : Type :=
| Done (a : A)
| Threw
| OutOfFuel.
Arguments Done {A} a.
Arguments Threw {A}.
Arguments OutOfFuel {A}.

Definition obind {A B} (m : outcome A) (k : A → outcome B) : outcome B :=
  match m with
  | Done a => k a
  | Threw => Threw
  | OutOfFuel => OutOfFuel
  end.

(** ** The scan loop

    Both decoration builders walk the window with
    [for (let i = 0; i <= text.length; i) { ...; i += char.length }].
    [scanChar] is the character of one iteration, [scanLoop] the loop with
    its body abstracted, and [scanTrace] the sequence of iterations. *)
Definition newline : jsstring := [10%Z].

Definition scanChar (text : jsstring) (i : nat) : option jsstring :=
  let codePoint := codePointAt text i in
  if bool_decide (i < length text) then fromCodePoint codePoint
  else Some newline.

Fixpoint scanLoop {S : Type} (body : nat → jsstring → S → S)
    (text : jsstring) (fuel i : nat) (st : S) {struct fuel} : outcome S :=
  if bool_decide (i ≤ length text) then
    match fuel with
    | O => OutOfFuel
    | S fuel' =>
        match scanChar text i with
        | None => Threw
        | Some char =>
            scanLoop body text fuel' (i + length char) (body i char st)
        end
    end
  else Done st.

(** One unit of fuel per index of the window, plus the extra iteration at
    [i = text.length]. *)
Definition scanFuel (text : jsstring) : nat := S (length text).

Definition scanTrace (text : jsstring) : outcome (list (nat * jsstring)) :=
  scanLoop (λ i char acc, acc ++ [(i, char)]) text (scanFuel text) 0 [].

(** The units of the code point that starts at index [i]. *)
Definition unitsAt (text : jsstring) (i : nat) (first : Z) : jsstring :=
  match text !! S i with
  | Some second =>
      if isHighSurrogate first && isLowSurrogate second then [first; second]
      else [first]
  | None => [first]
  end.

(** The iterations of the loop, listed from the current index on. *)
Fixpoint scanSteps (text : jsstring) (fuel i : nat)
    : outcome (list (nat * jsstring)) :=
  if bool_decide (i ≤ length text) then
    match fuel with
    | O => OutOfFuel
    | S fuel' =>
        match scanChar text i with
        | None => Threw
        | Some char =>
            obind (scanSteps text fuel' (i + length char))
                  (λ tr, Done ((i, char) :: tr))
        end
    end
  else Done [].

(** The same iterations as a relation: [steps text i tr] when the loop,
    entered at index [i], runs through exactly the iterations [tr]. *)
Inductive steps (text : jsstring) : nat → list (nat * jsstring) → Prop :=
| steps_done i : length text < i → steps text i []
| steps_next i char tr :
    i ≤ length text →
    scanChar text i = Some char →
    steps text (i + length char) tr →
    steps text i ((i, char) :: tr).

(** ** Host objects

    The editor, the workspace and the vault are supplied by the host; the
    builders only read them.  A record field that is a function stands for
    the host method of the same name. *)

(** [TFile]: a note of the vault. *)
Record TFile := mkTFile { path : jsstring; basename : jsstring }.
#[global] Instance TFile_eq_dec : EqDecision TFile.
Proof. solve_decision. Defined.

(** A note with the aliases of its front matter. *)
Record Note := mkNote { noteFile : TFile; aliases : list jsstring }.

(** DOM elements are identified by a number. *)
Abbreviation HTMLElement := nat (only parsing).

(** A node of the editor's syntax tree. *)
Record SyntaxNode := mkSyntaxNode {
  typeName : jsstring;
  nodeFrom : Z;
  nodeTo : Z }.

Record EditorState := mkEditorState {
  sliceString : Z → Z → jsstring;           (* state.doc.sliceString *)
  lineAt : Z → Z * Z;                       (* state.doc.lineAt: (from, to) *)
  selectionMainFrom : Z;                    (* state.selection.main.from *)
  syntaxTreeIterate : Z → Z → list SyntaxNode }.

Record EditorView := mkEditorView {
  dom : HTMLElement;
  state : EditorState;
  visibleRanges : list (Z * Z) }.

Record ViewUpdate := mkViewUpdate {
  view : EditorView;
  docChanged : bool;
  viewportChanged : bool }.

Record MarkdownView := mkMarkdownView {
  contentEl : HTMLElement;
  file : option TFile }.

Record App := mkApp {
  parentNode : HTMLElement → option HTMLElement;
  getActiveViewOfType : option MarkdownView;
  getActiveFile : option TFile;
  vault : list Note }.

(** ** Candidates and decorations *)

(** An element of [additions]; [widget] is the [WidgetType] it carries. *)
Record Addition (W : Type) := mkAddition {
  id : nat;
  from : Z;
  to : Z;
  widget : W }.
Arguments mkAddition {W} _ _ _ _.
Arguments id {W} _.
Arguments from {W} _.
Arguments to {W} _.
Arguments widget {W} _.

(** A range handed to [RangeSetBuilder.add] with its replace decoration. *)
Record Decoration (W : Type) := mkDecoration {
  decoFrom : Z;
  decoTo : Z;
  decoWidget : W }.
Arguments mkDecoration {W} _ _ _.
Arguments decoFrom {W} _.
Arguments decoTo {W} _.
Arguments decoWidget {W} _.

(** A result of [getCurrentMatchNodes]. *)
Record MatchNode := mkMatchNode {
  start : Z;
  end_ : Z;
  files : list TFile }.

(** [Array.prototype.sort] is stable; with a consistent comparator its
    result is the stable sorted arrangement, computed here by insertion. *)
Section array_sort.
Context {A : Type} (compare : A → A → Z).

Fixpoint sortInsert (x : A) (l : list A) : list A :=
  match l with
  | [] => [x]
  | y :: l' =>
      if bool_decide (compare x y ≤ 0)%Z then x :: l
      else y :: sortInsert x l'
  end.

Fixpoint arraySort (l : list A) : list A :=
  match l with
  | [] => []
  | x :: l' => sortInsert x (arraySort l')
  end.
End array_sort.

(** The interval index of [@flatten-js/interval-tree]: keys are closed
    intervals, an array key [[a, b]] is stored as [[min a b, max a b]], and
    [search] returns the stored intervals that intersect the query. *)
Module IntervalTree.
Record Interval := mkInterval { low : Z; high : Z }.

Definition t := list Interval.
Definition empty : t := [].

Definition ofPair (key : Z * Z) : Interval :=
  mkInterval (Z.min key.1 key.2) (Z.max key.1 key.2).

Definition insert (key : Z * Z) (tree : t) : t := tree ++ [ofPair key].

Definition not_intersect (a b : Interval) : bool :=
  bool_decide (high a < low b)%Z || bool_decide (high b < low a)%Z.

Definition search (tree : t) (key : Z * Z) : list Interval :=
  filter (λ iv, not_intersect iv (ofPair key) = false) tree.
End IntervalTree.

(** The range-set builder of [@codemirror/state].  A builder is a chain of
    layers ([this], [nextLayer], ...), each remembering the last range it
    took; [lastFrom] and [lastTo] start at [-Far] and [last] at [null].
    [add] throws when a range starts before the start of the last range
    of a layer that cannot take it, and when it has to read a side of
    [last] while [last] is still [null].  All values added here are
    non-inclusive replace decorations, which have the same two sides. *)
Module RangeSetBuilder.
Definition Far : Z := 1000000000.
Definition startSide : Z := (500000000 - 1)%Z.
Definition endSide : Z := (-600000000 + 1)%Z.

Record Layer := mkLayer { lastFrom : Z; lastTo : Z; hasLast : bool }.
Definition newLayer : Layer := mkLayer (- Far)%Z (- Far)%Z false.

Inductive addResult :=
| Added (l : Layer)
| NotAdded
| Raised.

(** [a || side], where [side] is read from [last]: [None] when [last] is
    [null]. *)
Definition orSide (a : Z) (l : Layer) (side : Z) : option Z :=
  if bool_decide (a = 0%Z) then (if hasLast l then Some side else None)
  else Some a.

(** [addInner]: [NotAdded] is its result [false]. *)
Definition addInner (l : Layer) (rangeFrom rangeTo : Z) : addResult :=
  match orSide (rangeFrom - lastTo l)%Z l (startSide - endSide)%Z with
  | None => Raised
  | Some diff =>
      let taken :=
        if bool_decide (diff < 0)%Z then NotAdded
        else Added (mkLayer rangeFrom rangeTo true) in
      if bool_decide (diff ≤ 0)%Z then
        match orSide (rangeFrom - lastFrom l)%Z l (startSide - startSide)%Z with
        | None => Raised
        | Some order => if bool_decide (order < 0)%Z then Raised else taken
        end
      else taken
  end.

(** [add] along the chain of layers; the empty chain stands for a
    [nextLayer] that is yet to be created.  [None] is a throw. *)
Fixpoint addLayers (layers : list Layer) (rangeFrom rangeTo : Z)
    : option (list Layer) :=
  match layers with
  | [] =>
      match addInner newLayer rangeFrom rangeTo with
      | Added l => Some [l]
      | _ => None
      end
  | l :: next =>
      match addInner l rangeFrom rangeTo with
      | Added l' => Some (l' :: next)
      | NotAdded => cons l <$> addLayers next rangeFrom rangeTo
      | Raised => None
      end
  end.

(** A builder: its layers and the ranges added so far, in the order in
    which they were added. *)
Record t (W : Type) := mkBuilder {
  layers : list Layer;
  ranges : list (Decoration W) }.
Arguments mkBuilder {W} _ _.
Arguments layers {W} _.
Arguments ranges {W} _.

Definition empty {W} : t W := mkBuilder [newLayer] [].

Definition add {W} (b : t W) (d : Decoration W) : outcome (t W) :=
  match addLayers (layers b) (decoFrom d) (decoTo d) with
  | Some ls => Done (mkBuilder ls (ranges b ++ [d]))
  | None => Threw
  end.

Fixpoint addAll {W} (b : t W) (ds : list (Decoration W)) : outcome (t W) :=
  match ds with
  | [] => Done b
  | d :: ds' => obind (add b d) (λ b', addAll b' ds')
  end.

(** [finish]: the ranges of the set. *)
Definition finish {W} (b : t W) : list (Decoration W) := ranges b.
End RangeSetBuilder.

(** ** The cache interface

    [linkerCache.ts] is used through [LinkerCache.reset],
    [LinkerCache.updateCache], [PrefixTree.getCurrentMatchNodes],
    [PrefixTree.pushChar] and the static [PrefixTree.checkWordBoundary]. *)
Class PrefixTreeOps (C : Type) := {
  reset : C → C;
  updateCache : App → bool → C → C;
  getCurrentMatchNodes : C → Z → option TFile → list MatchNode;
  pushChar : C → jsstring → C;
  checkWordBoundary : jsstring → bool }.

(** A match reported at an offset ends at that offset. *)
Class PrefixTreeLaws (C : Type) `{PrefixTreeOps C} := {
  match_end : ∀ (c : C) (i : Z) (excluded : option TFile) (node : MatchNode),
    node ∈ getCurrentMatchNodes c i excluded → end_ node = i }.

(** The matches of a scan do not start before the window: the states
    [started] are those from which every reported match starts at an
    offset that is not negative; a reset cache is one, and pushing a
    character keeps them. *)
Class PrefixTreeStarts (C : Type) `{PrefixTreeOps C} := {
  started : C → Prop;
  reset_started : ∀ c : C, started (reset c);
  pushChar_started : ∀ (c : C) (char : jsstring),
    started c → started (pushChar c char);
  match_start : ∀ (c : C) (i : Z) (excluded : option TFile) (node : MatchNode),
    started c → node ∈ getCurrentMatchNodes c i excluded → (0 ≤ start node)%Z }.

(** ** DOM elements built by the widgets

    An element with its tag, its class list, its attributes in the order
    in which they are set, its text and its child elements. *)
Inductive Element :=
| mkElement (tagName : jsstring) (classList : list jsstring)
    (attributes : list (jsstring * jsstring)) (textContent : jsstring)
    (childNodes : list Element).

Definition tagName (e : Element) : jsstring :=
  let 'mkElement t _ _ _ _ := e in t.
Definition classList (e : Element) : list jsstring :=
  let 'mkElement _ c _ _ _ := e in c.
Definition attributes (e : Element) : list (jsstring * jsstring) :=
  let 'mkElement _ _ a _ _ := e in a.
Definition textContent (e : Element) : jsstring :=
  let 'mkElement _ _ _ t _ := e in t.
Definition childNodes (e : Element) : list Element :=
  let 'mkElement _ _ _ _ c := e in c.

(** [Number.prototype.toString] on an integer offset. *)
Definition numberToString (z : Z) : jsstring := str (pretty z).

(** ** [src/linker/liveLinker.ts] *)
Module Linker.

Record LinkerPluginSettings := mkSettings {
  matchOnlyWholeWords : bool;
  suppressSuffixForSubWords : bool;
  excludeLinksToOwnNote : bool;
  excludeLinksInCurrentLine : bool;
  includeHeaders : bool;
  applyDefaultLinkStyling : bool;
  glossarySuffix : jsstring }.

(** [isDescendant]: the loop runs while [node != null] and
    [depth < maxDepth]; [remaining] is [maxDepth - depth]. *)
Fixpoint isDescendantLoop (app : App) (parent : HTMLElement)
    (node : option HTMLElement) (remaining : nat) : bool :=
  match node, remaining with
  | Some n, S remaining' =>
      if bool_decide (n = parent) then true
      else isDescendantLoop app parent (parentNode app n) remaining'
  | _, _ => false
  end.

Definition isDescendant (app : App) (parent child : HTMLElement)
    (maxDepth : nat) : bool :=
  isDescendantLoop app parent (parentNode app child) maxDepth.

(** The data of a [LiveLinkWidget]. *)
Record LiveLinkWidget := mkWidget {
  text : jsstring;
  linkFile : option TFile;
  widgetFrom : Z;
  widgetTo : Z;
  isSubWord : bool }.

(** *** Overlap resolution *)

(** The comparator of [additions.sort]. *)
Definition compareAdditions {W} (a b : Addition W) : Z :=
  if bool_decide (from a = from b) then (to b - to a)%Z
  else (from a - from b)%Z.

(** The inner loop over [j = i + 1 ..], with its [break]. *)
Fixpoint markOverlapping {W} (addition : Addition W)
    (others : list (Addition W)) (additionsToDelete : gmap nat bool)
    : gmap nat bool :=
  match others with
  | [] => additionsToDelete
  | otherAddition :: others' =>
      if bool_decide (from otherAddition >= to addition)%Z
      then additionsToDelete
      else markOverlapping addition others'
             (<[id otherAddition := true]> additionsToDelete)
  end.

(** The outer loop over [i]. *)
Fixpoint markAll {W} (additions : list (Addition W))
    (additionsToDelete : gmap nat bool) : gmap nat bool :=
  match additions with
  | [] => additionsToDelete
  | addition :: others =>
      markAll others (markOverlapping addition others additionsToDelete)
  end.

(** [filteredAdditions] for a given content of [additions]. *)
Definition resolveOverlaps {W} (additions : list (Addition W))
    : list (Addition W) :=
  let additions := arraySort compareAdditions additions in
  let additionsToDelete := markAll additions ∅ in
  filter (λ addition, additionsToDelete !! id addition = None) additions.

(** *** Structural and contextual exclusion *)

Definition excludedTypes (settings : LinkerPluginSettings) : list jsstring :=
  [str "codeblock"; str "code-block"; str "internal-link"; str "link"]
  ++ (if includeHeaders settings then [] else [str "header-"]).

(** The [enter] callback of the syntax-tree iteration. *)
Definition enter (excludedTypes : list jsstring) (tree : IntervalTree.t)
    (node : SyntaxNode) : IntervalTree.t :=
  foldl (λ tree excludedType,
           if contains (typeName node) excludedType
           then IntervalTree.insert (nodeFrom node, nodeTo node) tree
           else tree)
        tree excludedTypes.

Definition excludedIntervalTree (settings : LinkerPluginSettings)
    (st : EditorState) (winFrom winTo : Z) : IntervalTree.t :=
  foldl (enter (excludedTypes settings)) IntervalTree.empty
        (syntaxTreeIterate st winFrom winTo).

(** The condition under which [builder.add] is called. *)
Definition emitted {W} (settings : LinkerPluginSettings) (st : EditorState)
    (viewIsActive : bool) (tree : IntervalTree.t) (addition : Addition W)
    : bool :=
  let cursorPos := selectionMainFrom st in
  let excludeLine := viewIsActive && excludeLinksInCurrentLine settings in
  let lineStart := (lineAt st cursorPos).1 in
  let lineEnd := (lineAt st cursorPos).2 in
  let overlaps := IntervalTree.search tree (from addition, to addition) in
  let cursorNearby :=
    bool_decide (cursorPos >= from addition - 0)%Z
    && bool_decide (cursorPos ≤ to addition + 0)%Z in
  let additionIsInCurrentLine :=
    bool_decide (from addition >= lineStart)%Z
    && bool_decide (to addition ≤ lineEnd)%Z in
  bool_decide (length overlaps = 0)
  && negb cursorNearby
  && (negb excludeLine || negb additionIsInCurrentLine).

Definition decorationOf {W} (addition : Addition W) : Decoration W :=
  mkDecoration (from addition) (to addition) (widget addition).

(** Everything after the scan of one visible range: the ranges added to
    the builder for the candidates [additions]. *)
Definition rangeDecorations {W} (settings : LinkerPluginSettings)
    (st : EditorState) (viewIsActive : bool) (winFrom winTo : Z)
    (additions : list (Addition W)) : list (Decoration W) :=
  let filteredAdditions := resolveOverlaps additions in
  let tree := excludedIntervalTree settings st winFrom winTo in
  decorationOf <$>
    filter (λ addition, emitted settings st viewIsActive tree addition = true)
           filteredAdditions.

Section plugin.
Context {C : Type} `{PrefixTreeOps C}.

(** *** The candidate scan *)
Record ScanState := mkScanState {
  cache : C;
  nextId : nat;
  additions : list (Addition LiveLinkWidget) }.

Definition scanBody (settings : LinkerPluginSettings)
    (mappedFile : option TFile) (text : jsstring) (winFrom : Z)
    (i : nat) (char : jsstring) (s : ScanState) : ScanState :=
  let isWordBoundary := checkWordBoundary char in
  let s' :=
    if negb (matchOnlyWholeWords settings) || isWordBoundary then
      let currentNodes :=
        getCurrentMatchNodes (cache s) (Z.of_nat i)
          (if excludeLinksToOwnNote settings then mappedFile else None) in
      match currentNodes with
      | node :: _ =>
          let nFrom := start node in
          let nTo := end_ node in
          let name := slice text nFrom nTo in
          let file := head (files node) in
          let aFrom := (winFrom + nFrom)%Z in
          let aTo := (winFrom + nTo)%Z in
          mkScanState (cache s) (S (nextId s))
            (additions s ++
             [mkAddition (nextId s) aFrom aTo
                (mkWidget name file aFrom aTo (negb isWordBoundary))])
      | [] => s
      end
    else s in
  mkScanState (pushChar (cache s') char) (nextId s') (additions s').

Definition scan (settings : LinkerPluginSettings)
    (mappedFile : option TFile) (text : jsstring) (winFrom : Z)
    (c : C) : outcome ScanState :=
  scanLoop (scanBody settings mappedFile text winFrom) text
    (scanFuel text) 0 (mkScanState c 0 []).

(** *** [buildDecorations] *)

(** One iteration of the loop over [view.visibleRanges]. *)
Definition decorateRange (settings : LinkerPluginSettings)
    (v : EditorView) (mappedFile : option TFile) (viewIsActive : bool)
    (c : C) (range : Z * Z) : outcome (C * list (Decoration LiveLinkWidget)) :=
  let '(winFrom, winTo) := range in
  let c := reset c in
  let text := sliceString (state v) winFrom winTo in
  obind (scan settings mappedFile text winFrom c) (λ s,
    Done (cache s,
          rangeDecorations settings (state v) viewIsActive winFrom winTo
            (additions s))).

(** The loop over [view.visibleRanges]: the ranges of each iteration are
    added to the builder, which may throw. *)
Fixpoint decorateRanges (settings : LinkerPluginSettings)
    (v : EditorView) (mappedFile : option TFile) (viewIsActive : bool)
    (c : C) (builder : RangeSetBuilder.t LiveLinkWidget)
    (ranges : list (Z * Z))
    : outcome (C * RangeSetBuilder.t LiveLinkWidget) :=
  match ranges with
  | [] => Done (c, builder)
  | range :: ranges' =>
      obind (decorateRange settings v mappedFile viewIsActive c range)
        (λ '(c', ds),
          obind (RangeSetBuilder.addAll builder ds) (λ builder',
            decorateRanges settings v mappedFile viewIsActive c' builder'
              ranges'))
  end.

Definition buildDecorations (settings : LinkerPluginSettings)
    (viewUpdateDomToFileMap : gmap HTMLElement (option TFile))
    (c : C) (v : EditorView) (viewIsActive : bool)
    : outcome (C * list (Decoration LiveLinkWidget)) :=
  let builder := RangeSetBuilder.empty in
  let mappedFile := mjoin (viewUpdateDomToFileMap !! dom v) in
  obind (decorateRanges settings v mappedFile viewIsActive c builder
           (visibleRanges v))
    (λ '(c', builder'), Done (c', RangeSetBuilder.finish builder')).

(** *** The plugin object and [update] *)
Record AutoLinkerPlugin := mkPlugin {
  decorations : list (Decoration LiveLinkWidget);
  linkerCache : C;
  lastCursorPos : Z;
  lastActiveFile : jsstring;
  lastViewUpdate : option ViewUpdate;
  viewUpdateDomToFileMap : gmap HTMLElement (option TFile) }.

Definition update (app : App) (settings : LinkerPluginSettings)
    (this : AutoLinkerPlugin) (upd : ViewUpdate) (force : bool)
    : outcome AutoLinkerPlugin :=
  let activeView := getActiveViewOfType app in
  let '(updateIsOnActiveView, domToFile) :=
    if excludeLinksInCurrentLine settings || excludeLinksToOwnNote settings
    then
      let domFromUpdate := dom (view upd) in
      let domFromWorkspace := contentEl <$> activeView in
      let updateIsOnActiveView :=
        match domFromWorkspace with
        | Some d => isDescendant app d domFromUpdate 3
        | None => false
        end in
      (updateIsOnActiveView,
       if updateIsOnActiveView
       then <[domFromUpdate := activeView ≫= file]>
              (viewUpdateDomToFileMap this)
       else viewUpdateDomToFileMap this)
    else (false, viewUpdateDomToFileMap this) in
  let cursorPos := selectionMainFrom (state (view upd)) in
  let activeFile := path <$> getActiveFile app in
  let fileChanged :=
    negb (bool_decide (activeFile = Some (lastActiveFile this))) in
  if force
     || negb (bool_decide (lastCursorPos this = cursorPos))
     || docChanged upd || fileChanged || viewportChanged upd
  then
    let c := updateCache app force (linkerCache this) in
    obind (buildDecorations settings domToFile c (view upd)
             updateIsOnActiveView)
      (λ '(c', ds),
        Done (mkPlugin ds c' cursorPos (default [] activeFile)
                (Some upd) domToFile))
  else
    Done (mkPlugin (decorations this) (linkerCache this)
            (lastCursorPos this) (lastActiveFile this)
            (Some upd) domToFile).
End plugin.
Arguments ScanState C : clear implicits.
Arguments AutoLinkerPlugin C : clear implicits.

(** *** The widget's DOM *)

(** [LiveLinkWidget.createInternalLinkSpan]; reading [note.path] of a
    missing file throws, which the [catch] turns into an empty [href]. *)
Definition createInternalLinkSpan (settings : LinkerPluginSettings)
    (this : LiveLinkWidget) : Element :=
let note := linkFile this in
let linkText := text this in
let linkHref := match note with Some f => path f | None => [] end in
let link :=
  mkElement (str "a")
    [str "internal-link"; str "virtual-link-a"]
    [(str "href", linkHref);
     (str "target", str "_blank");
     (str "rel", str "noopener noreferrer");
     (str "from", numberToString (widgetFrom this));
     (str "to", numberToString (widgetTo this));
     (str "origin-text", text this)]
    linkText [] in
let spanClasses :=
  [str "glossary-entry"; str "virtual-link"]
  ++ (if applyDefaultLinkStyling settings
      then [str "virtual-link-default"] else []) in
let icon :=
  if bool_decide (0 < length (glossarySuffix settings)) then
    if negb (isSubWord this) || negb (suppressSuffixForSubWords settings)
    then [mkElement (str "sup") [str "linker-suffix-icon"] []
            (glossarySuffix settings) []]
    else []
  else [] in
mkElement (str "span") spanClasses [] [] (link :: icon).

Definition toDOM (settings : LinkerPluginSettings) (this : LiveLinkWidget)
    : Element :=
createInternalLinkSpan settings this.

(** *** Construction and the external-update callback *)
Section lifecycle.
Context {C : Type} `{PrefixTreeOps C}.

(** The constructor, given the cache that [new LinkerCache] returns. *)
Definition construct (settings : LinkerPluginSettings) (c : C)
    (v : EditorView) : outcome (AutoLinkerPlugin C) :=
obind (buildDecorations settings ∅ c v true) (λ '(c', ds),
  Done (mkPlugin ds c' 0 [] None ∅)).

(** The callback registered with the update manager. *)
Definition externalUpdate (app : App) (settings : LinkerPluginSettings)
    (this : AutoLinkerPlugin C) : outcome (AutoLinkerPlugin C) :=
match lastViewUpdate this with
| Some upd => update app settings this upd true
| None => Done this
end.
End lifecycle.

End Linker.

(** ** [src/glossary/liveLinker.ts]

    The glossary builder calls [getCurrentMatchNodes(i)] and
    [updateCache()] without their optional arguments. *)
Module Glossary.

(** The data of a [LiveLinkWidget]. *)
Record LiveLinkWidget := mkWidget {
  text : jsstring;
  linkFile : option TFile }.

(** *** Overlap resolution *)

Definition compareAdditions {W} (a b : Addition W) : Z :=
  if bool_decide (from a = from b) then (to b - to a)%Z
  else (from a - from b)%Z.

Fixpoint markOverlapping {W} (addition : Addition W)
    (others : list (Addition W)) (additionsToDelete : gmap nat bool)
    : gmap nat bool :=
  match others with
  | [] => additionsToDelete
  | otherAddition :: others' =>
      if bool_decide (from otherAddition >= to addition)%Z
      then additionsToDelete
      else markOverlapping addition others'
             (<[id otherAddition := true]> additionsToDelete)
  end.

Fixpoint markAll {W} (additions : list (Addition W))
    (additionsToDelete : gmap nat bool) : gmap nat bool :=
  match additions with
  | [] => additionsToDelete
  | addition :: others =>
      markAll others (markOverlapping addition others additionsToDelete)
  end.

Definition resolveOverlaps {W} (additions : list (Addition W))
    : list (Addition W) :=
  let additions := arraySort compareAdditions additions in
  let additionsToDelete := markAll additions ∅ in
  filter (λ addition, additionsToDelete !! id addition = None) additions.

(** *** Structural and cursor exclusion *)

Definition excludedTypes : list jsstring :=
  [str "codeblock"; str "code-block"; str "internal-link"].

Definition enter (excludedTypes : list jsstring) (tree : IntervalTree.t)
    (node : SyntaxNode) : IntervalTree.t :=
  foldl (λ tree excludedType,
           if contains (typeName node) excludedType
           then IntervalTree.insert (nodeFrom node, nodeTo node) tree
           else tree)
        tree excludedTypes.

Definition excludedIntervalTree (st : EditorState) (winFrom winTo : Z)
    : IntervalTree.t :=
  foldl (enter excludedTypes) IntervalTree.empty
        (syntaxTreeIterate st winFrom winTo).

Definition emitted {W} (st : EditorState) (tree : IntervalTree.t)
    (addition : Addition W) : bool :=
  let cursorPos := selectionMainFrom st in
  let overlaps := IntervalTree.search tree (from addition, to addition) in
  let cursorNearby :=
    bool_decide (cursorPos >= from addition - 0)%Z
    && bool_decide (cursorPos ≤ to addition + 0)%Z in
  bool_decide (length overlaps = 0) && negb cursorNearby.

Definition decorationOf {W} (addition : Addition W) : Decoration W :=
  mkDecoration (from addition) (to addition) (widget addition).

Definition rangeDecorations {W} (st : EditorState) (winFrom winTo : Z)
    (additions : list (Addition W)) : list (Decoration W) :=
  let filteredAdditions := resolveOverlaps additions in
  let tree := excludedIntervalTree st winFrom winTo in
  decorationOf <$>
    filter (λ addition, emitted st tree addition = true) filteredAdditions.

Section plugin.
Context {C : Type} `{PrefixTreeOps C}.

Record ScanState := mkScanState {
  cache : C;
  nextId : nat;
  additions : list (Addition LiveLinkWidget) }.

Definition scanBody (text : jsstring) (winFrom : Z)
    (i : nat) (char : jsstring) (s : ScanState) : ScanState :=
  let s' :=
    if checkWordBoundary char then
      let currentNodes :=
        getCurrentMatchNodes (cache s) (Z.of_nat i) None in
      match currentNodes with
      | node :: _ =>
          let nFrom := start node in
          let nTo := end_ node in
          let name := slice text nFrom nTo in
          let file := head (files node) in
          mkScanState (cache s) (S (nextId s))
            (additions s ++
             [mkAddition (nextId s) (winFrom + nFrom)%Z (winFrom + nTo)%Z
                (mkWidget name file)])
      | [] => s
      end
    else s in
  mkScanState (pushChar (cache s') char) (nextId s') (additions s').

Definition scan (text : jsstring) (winFrom : Z) (c : C)
    : outcome ScanState :=
  scanLoop (scanBody text winFrom) text (scanFuel text) 0
    (mkScanState c 0 []).

Definition decorateRange (v : EditorView) (c : C) (range : Z * Z)
    : outcome (C * list (Decoration LiveLinkWidget)) :=
  let '(winFrom, winTo) := range in
  let c := reset c in
  let text := sliceString (state v) winFrom winTo in
  obind (scan text winFrom c) (λ s,
    Done (cache s,
          rangeDecorations (state v) winFrom winTo (additions s))).

Fixpoint decorateRanges (v : EditorView) (c : C)
    (builder : RangeSetBuilder.t LiveLinkWidget) (ranges : list (Z * Z))
    : outcome (C * RangeSetBuilder.t LiveLinkWidget) :=
  match ranges with
  | [] => Done (c, builder)
  | range :: ranges' =>
      obind (decorateRange v c range) (λ '(c', ds),
        obind (RangeSetBuilder.addAll builder ds) (λ builder',
          decorateRanges v c' builder' ranges'))
  end.

Definition buildDecorations (c : C) (v : EditorView)
    : outcome (C * list (Decoration LiveLinkWidget)) :=
  let builder := RangeSetBuilder.empty in
  obind (decorateRanges v c builder (visibleRanges v))
    (λ '(c', builder'), Done (c', RangeSetBuilder.finish builder')).

Record AutoLinkerPlugin := mkPlugin {
  decorations : list (Decoration LiveLinkWidget);
  linkerCache : C;
  lastCursorPos : Z;
  lastActiveFile : jsstring }.

Definition update (app : App) (this : AutoLinkerPlugin)
    (upd : ViewUpdate) : outcome AutoLinkerPlugin :=
  let cursorPos := selectionMainFrom (state (view upd)) in
  let activeFile := path <$> getActiveFile app in
  let fileChanged :=
    negb (bool_decide (activeFile = Some (lastActiveFile this))) in
  if negb (bool_decide (lastCursorPos this = cursorPos))
     || docChanged upd || fileChanged || viewportChanged upd
  then
    let c := updateCache app false (linkerCache this) in
    obind (buildDecorations c (view upd)) (λ '(c', ds),
      Done (mkPlugin ds c' cursorPos (default [] activeFile)))
  else Done this.
End plugin.
Arguments ScanState C : clear implicits.
Arguments AutoLinkerPlugin C : clear implicits.

(** *** The widget's DOM *)
Record GlossaryLinkerPluginSettings := mkSettings {
glossarySuffix : jsstring }.

Definition createInternalLinkSpan (settings : GlossaryLinkerPluginSettings)
    (this : LiveLinkWidget) : Element :=
let note := linkFile this in
let linkText := text this in
let linkHref := match note with Some f => path f | None => [] end in
let link :=
  mkElement (str "a")
    [str "internal-link"; str "glossary-entry"]
    [(str "href", linkHref);
     (str "target", str "_blank");
     (str "rel", str "noopener noreferrer")]
    (linkText ++ glossarySuffix settings) [] in
mkElement (str "span") [] [] [] [link].

Definition toDOM (settings : GlossaryLinkerPluginSettings)
    (this : LiveLinkWidget) : Element :=
createInternalLinkSpan settings this.

End Glossary.

(** ** [linkerCache.ts]

    The cache module is not among the sources; its definitions follow the
    specification's sections 3, 4.1 and 4.2. *)
Module LinkerCache.

(** Modelled from the spec: [DictionaryEntry], one literal pattern with
    its owning note (the dictionary builder of [linkerCache.ts] is
    missing). *)
Record DictionaryEntry := mkEntry {
  entryText : jsstring;
  entity : TFile;
  isAlias : bool }.

(** Modelled from the spec: the dictionary builder of [linkerCache.ts],
    a flat list with one entry per title and per alias. *)
Definition buildDictionary (notes : list Note) : list DictionaryEntry :=
  n ← notes;
  mkEntry (basename (noteFile n)) (noteFile n) false
    :: ((λ a, mkEntry a (noteFile n) true) <$> aliases n).

(** Modelled from the spec: [TrieNode] of the missing [PrefixTree], a
    mapping from a character to a child with unique keys, and the set of
    notes whose pattern ends at the node. *)
Inductive TrieNode :=
| mkTrieNode (terminal : list TFile) (children : list (jsstring * TrieNode)).

Definition terminal (n : TrieNode) : list TFile :=
  let 'mkTrieNode t _ := n in t.
Definition children (n : TrieNode) : list (jsstring * TrieNode) :=
  let 'mkTrieNode _ c := n in c.
Definition emptyNode : TrieNode := mkTrieNode [] [].

Fixpoint getChild {V} (children : list (jsstring * V)) (char : jsstring)
    : option V :=
  match children with
  | [] => None
  | (k, n) :: rest => if decide (k = char) then Some n else getChild rest char
  end.

Fixpoint setChild {V} (dflt : V) (char : jsstring) (f : V → V)
    (children : list (jsstring * V)) : list (jsstring * V) :=
  match children with
  | [] => [(char, f dflt)]
  | (k, n) :: rest =>
      if decide (k = char) then (k, f n) :: rest
      else (k, n) :: setChild dflt char f rest
  end.

(** Modelled from the spec: the build step of the missing [PrefixTree],
    inserting a pattern character by character and adding the note to
    the terminal set of the last node. *)
Fixpoint insertChars (chars : list jsstring) (e : TFile) (n : TrieNode)
    : TrieNode :=
  match chars with
  | [] =>
      mkTrieNode (if decide (e ∈ terminal n) then terminal n
                  else terminal n ++ [e])
                 (children n)
  | c :: chars' =>
      mkTrieNode (terminal n)
                 (setChild emptyNode c (insertChars chars' e) (children n))
  end.

Definition buildTrie (entries : list DictionaryEntry) : TrieNode :=
  foldl (λ t e, insertChars (codePoints (entryText e)) (entity e) t)
        emptyNode entries.

(** Modelled from the spec: [ActiveCursor] of the missing [PrefixTree],
    an in-progress walk of the trie that started at [startOffset]. *)
Record ActiveCursor := mkCursor {
  node : TrieNode;
  startOffset : Z }.

(** Modelled from the spec: the traversal state of the missing
    [PrefixTree]: the trie, the live cursors and the offset of the next
    character. *)
Record Automaton := mkAutomaton {
  root : TrieNode;
  cursors : list ActiveCursor;
  offset : Z }.

Definition build (entries : list DictionaryEntry) : Automaton :=
  mkAutomaton (buildTrie entries) [] 0.

(** Modelled from the spec: [reset()] of the missing [PrefixTree],
    discarding all cursors. *)
Definition resetAutomaton (a : Automaton) : Automaton :=
  mkAutomaton (root a) [] 0.

(** Modelled from the spec: [query(offset)] of the missing [PrefixTree],
    one result per live cursor whose node is terminal. *)
Definition query (a : Automaton) (off : Z) : list MatchNode :=
  omap (λ c, match terminal (node c) with
             | [] => None
             | fs => Some (mkMatchNode (startOffset c) off fs)
             end)
       (cursors a).

(** Modelled from the spec: [push(char)] of the missing [PrefixTree]:
    advance every cursor, drop those without a child for [char], and
    start one new cursor at the current offset. *)
Definition push (a : Automaton) (char : jsstring) : Automaton :=
  let advanced :=
    omap (λ c, (λ n, mkCursor n (startOffset c))
                 <$> getChild (children (node c)) char)
         (cursors a) in
  let fresh :=
    match getChild (children (root a)) char with
    | Some n => [mkCursor n (offset a)]
    | None => []
    end in
  mkAutomaton (root a) (advanced ++ fresh)
              (offset a + Z.of_nat (length char))%Z.

(** Modelled from the spec: the missing [LinkerCache], one automaton with
    the dictionary it was built from and the pending-rebuild flag. *)
Record Cache := mkCache {
  automaton : Automaton;
  dictionary : list DictionaryEntry;
  pendingUpdate : bool }.

Definition emptyCache : Cache := mkCache (build []) [] true.

(** Modelled from the spec: the external-update notification of the
    missing [LinkerCache] sets the pending-rebuild flag. *)
Definition notifyChanged (c : Cache) : Cache :=
  mkCache (automaton c) (dictionary c) true.

(** Modelled from the spec: [updateCache(force)] of the missing
    [LinkerCache]: a full rebuild when an update is pending or [force]
    is set, otherwise nothing; the rebuild clears the flag. *)
Definition updateCache (app : App) (force : bool) (c : Cache) : Cache :=
  if pendingUpdate c || force then
    let d := buildDictionary (vault app) in
    mkCache (build d) d false
  else c.

(** Modelled from the spec: [reset()] of the missing [LinkerCache]. *)
Definition reset (c : Cache) : Cache :=
  mkCache (resetAutomaton (automaton c)) (dictionary c) (pendingUpdate c).

Definition pushChar (c : Cache) (char : jsstring) : Cache :=
  mkCache (push (automaton c) char) (dictionary c) (pendingUpdate c).

Definition keepFile (excluded : option TFile) (f : TFile) : bool :=
  match excluded with
  | Some e => negb (bool_decide (path f = path e))
  | None => true
  end.

(** Modelled from the spec: [getCurrentMatchNodes(offset, excludeEntity)]
    of the missing [PrefixTree]: the query results without the excluded
    note, dropping those left with no note. *)
Definition getCurrentMatchNodes (c : Cache) (off : Z)
    (excluded : option TFile) : list MatchNode :=
  omap (λ m,
          let fs :=
            filter (λ f, keepFile excluded f = true) (files m) in
          match fs with
          | [] => None
          | _ => Some (mkMatchNode (start m) (end_ m) fs)
          end)
       (query (automaton c) off).

(** Modelled from the spec: the word-boundary predicate of the missing
    [PrefixTree]: a character is a boundary when it is white space or
    one of a fixed set of punctuation marks. *)
Definition whitespace : list Z := [9; 10; 11; 12; 13; 32; 160]%Z.
Definition punctuation : list Z :=
  [33; 34; 39; 40; 41; 44; 46; 47; 58; 59; 63; 91; 93; 96; 123; 124; 125; 126]%Z.
Definition checkWordBoundary (char : jsstring) : bool :=
  match char with
  | [u] => bool_decide (u ∈ whitespace ++ punctuation)
  | _ => false
  end.

#[global] Instance ops : PrefixTreeOps Cache :=
  Build_PrefixTreeOps Cache reset updateCache getCurrentMatchNodes pushChar
    checkWordBoundary.

(** A cache freshly built from a vault. *)
Definition ofVault (notes : list Note) : Cache :=
  let d := buildDictionary notes in mkCache (build d) d false.

End LinkerCache.

(** ** Predicates on candidates and decorations *)

(** The order established by [additions.sort]. *)
Definition before {W} (a b : Addition W) : Prop :=
  (Linker.compareAdditions a b ≤ 0)%Z.

Definition overlappingAdditions {W} (a b : Addition W) : Prop :=
  (from a < to b ∧ from b < to a)%Z.

Definition sortedByFrom {W} (ds : list (Decoration W)) : Prop :=
  ∀ i j a b, i < j → ds !! i = Some a → ds !! j = Some b →
             (decoFrom a ≤ decoFrom b)%Z.

Definition overlapping {W} (a b : Decoration W) : Prop :=
  (decoFrom a < decoTo b ∧ decoFrom b < decoTo a)%Z.

Definition pairwiseNonOverlapping {W} (ds : list (Decoration W)) : Prop :=
  ∀ i j a b, i ≠ j → ds !! i = Some a → ds !! j = Some b → ¬ overlapping a b.

(** "A candidate is dropped only when it overlaps a predecessor that was
    itself kept": every candidate of the sorted list that overlaps no kept
    predecessor is in the resolver's output. *)
Definition droppedOnlyByKept {W} (l : list (Addition W)) : Prop :=
  ∀ j b, arraySort Linker.compareAdditions l !! j = Some b →
    (∀ i a, i < j → arraySort Linker.compareAdditions l !! i = Some a →
            a ∈ Linker.resolveOverlaps l → ¬ overlappingAdditions b a) →
    b ∈ Linker.resolveOverlaps l.

(** "Of two candidates starting at the same offset, the longer one's span
    is in the resolver's output and the shorter one's is not." *)
Definition longestMatchKept {W} (l : list (Addition W)) : Prop :=
  ∀ c1 c2, c1 ∈ l → c2 ∈ l → from c1 = from c2 → (to c1 < to c2)%Z →
    (∃ c, c ∈ Linker.resolveOverlaps l ∧ from c = from c2 ∧ to c = to c2)
    ∧ ¬ (∃ c, c ∈ Linker.resolveOverlaps l ∧ from c = from c1 ∧ to c = to c1).

(** "The left edge of the candidate's span is a word boundary": the match
    starts at the beginning of the window or right after a boundary
    character. *)
Definition leftEdgeIsWordBoundary {W} (boundary : jsstring → bool)
    (text : jsstring) (winFrom : Z) (a : Addition W) : Prop :=
  from a = winFrom
  ∨ ∃ u, text !! Z.to_nat (from a - winFrom - 1) = Some u
         ∧ boundary [u] = true.

(** "[isSubWord] is true exactly when the left edge of the span is not a
    word boundary." *)
Definition subWordIffLeftEdge (boundary : jsstring → bool)
    (text : jsstring) (winFrom : Z)
    (l : list (Addition Linker.LiveLinkWidget)) : Prop :=
  ∀ a, a ∈ l →
    Linker.isSubWord (widget a) = true
    ↔ ¬ leftEdgeIsWordBoundary boundary text winFrom a.

(** "Apart from the decorations, which stay, only the stored last view
    update may change": the other fields of the plugin are the same. *)
Definition onlyLastViewUpdateChanges {C} (this this' : Linker.AutoLinkerPlugin C)
    : Prop :=
  Linker.decorations this' = Linker.decorations this
  ∧ Linker.linkerCache this' = Linker.linkerCache this
  ∧ Linker.lastCursorPos this' = Linker.lastCursorPos this
  ∧ Linker.lastActiveFile this' = Linker.lastActiveFile this
  ∧ Linker.viewUpdateDomToFileMap this' = Linker.viewUpdateDomToFileMap this.

(** The [k]-th proper ancestor of a DOM element, counting its parent as
    the ancestor number 0. *)
Fixpoint ancestorAt (app : App) (e : HTMLElement) (k : nat)
    : option HTMLElement :=
match k with
| O => parentNode app e
| S k' => parentNode app e ≫= λ p, ancestorAt app p k'
end.

(** A builder that takes, in its first layer, every range that starts at
    [bound] or later. *)
Definition accepts {W} (b : RangeSetBuilder.t W) (bound : Z) : Prop :=
  ∃ l next,
    RangeSetBuilder.layers b = l :: next
    ∧ (RangeSetBuilder.lastTo l ≤ bound)%Z
    ∧ (RangeSetBuilder.hasLast l = true ∨ (RangeSetBuilder.lastTo l < bound)%Z).

(** What the host promises of a visible range: it starts at an offset of
    the document, and its text is well-formed and no longer than the
    range. *)
Definition rangeOk (st : EditorState) (r : Z * Z) : Prop :=
  wf (sliceString st r.1 r.2)
  ∧ (0 ≤ r.1)%Z
  ∧ (Z.of_nat (length (sliceString st r.1 r.2)) ≤ r.2 - r.1)%Z.

(** The states of the cache built from the specification in which no
    live cursor started before offset [0]. *)
Definition cacheStarted (c : LinkerCache.Cache) : Prop :=
  Forall (λ cur, (0 ≤ LinkerCache.startOffset cur)%Z)
         (LinkerCache.cursors (LinkerCache.automaton c))
  ∧ (0 ≤ LinkerCache.offset (LinkerCache.automaton c))%Z.

(** ** Sample vaults and windows *)
Module Examples.
Definition note (title : string) : Note :=
  mkNote (mkTFile (str title ++ str ".md") (str title)) [].

Definition wholeWords : Linker.LinkerPluginSettings :=
  Linker.mkSettings true false false false false false [].
Definition subWords : Linker.LinkerPluginSettings :=
  Linker.mkSettings false false false false false false [].

(** A one-line document with the cursor at [cursor] and no syntax
    nodes. *)
Definition plainState (text : string) (cursor : Z) : EditorState :=
  mkEditorState (slice (str text))
                (λ _, (0, Z.of_nat (length (str text)))%Z)
                cursor
                (λ _ _, []).

(** The same document with the syntax nodes [nodes] in every range. *)
Definition nodesState (text : string) (cursor : Z)
    (nodes : list SyntaxNode) : EditorState :=
  mkEditorState (slice (str text))
                (λ _, (0, Z.of_nat (length (str text)))%Z)
                cursor
                (λ _ _, nodes).

Definition plainView (text : string) (cursor : Z) : EditorView :=
  mkEditorView 0 (plainState text cursor)
               [(0, Z.of_nat (length (str text)))%Z].

(** The candidates the linker's scan finds in [text] for the notes
    [titles]. *)
Definition candidates (settings : Linker.LinkerPluginSettings)
    (text : string) (titles : list string)
    : list (Addition Linker.LiveLinkWidget) :=
  match Linker.scan settings None (str text) 0
          (LinkerCache.ofVault (note <$> titles)) with
  | Done s => Linker.additions s
  | _ => []
  end.

Definition spans {W} (l : list (Addition W)) : list (Z * Z) :=
  (λ a, (from a, to a)) <$> l.

(** A workspace whose active view shows the note ["Home"]; its content
    element 1 is the parent of the editor element 2. *)
Definition excludeOwnNote : Linker.LinkerPluginSettings :=
  Linker.mkSettings true false true false false false [].

Definition homeFile : TFile := noteFile (note "Home").

Definition homeApp : App :=
  mkApp (λ e, if bool_decide (e = 2) then Some 1 else None)
        (Some (mkMarkdownView 1 (Some homeFile)))
        (Some homeFile)
        [note "Home"; note "Note"].

Definition homeUpdate : ViewUpdate :=
  mkViewUpdate (mkEditorView 2 (plainState "see Note here" 0) [(0, 13)%Z])
               false false.

(** A plugin that last saw the cursor at 0 in ["Home"], with an empty
    map from DOM elements to files. *)
Definition homePlugin : Linker.AutoLinkerPlugin LinkerCache.Cache :=
  Linker.mkPlugin [] (LinkerCache.ofVault (vault homeApp)) 0
                  (path homeFile) None ∅.
End Examples.

(** * Properties *)

(** ** The scan loop *)
Section scan_loop.

Lemma surrogates_disjoint u : isHighSurrogate u = true → isLowSurrogate u = true → False.
Proof.
unfold isHighSurrogate, isLowSurrogate.
rewrite !andb_true_iff, !bool_decide_eq_true. lia.
Qed.

Lemma scanChar_lt text i first :
wf text → text !! i = Some first →
scanChar text i = Some (unitsAt text i first).
Proof.
intros Hwf Hi. unfold scanChar, codePointAt, unitsAt.
pose proof (lookup_lt_Some _ _ _ Hi) as Hlt.
rewrite bool_decide_eq_true_2 by done. rewrite Hi.
assert (0 ≤ first < 65536)%Z as Hf.
{ unfold wf in Hwf. rewrite Forall_forall in Hwf. apply Hwf.
  eapply list_elem_of_lookup_2; eauto. }
assert (fromCodePoint (Some first) = Some [first]) as Hsingle.
{ unfold fromCodePoint. repeat case_bool_decide; simpl; done || lia. }
destruct (isHighSurrogate first) eqn:Hh; simpl; [|by destruct (text !! S i)].
destruct (text !! S i) as [second|] eqn:Hs; [|done].
destruct (isLowSurrogate second) eqn:Hl; [|done].
unfold isHighSurrogate, isLowSurrogate in *.
rewrite andb_true_iff, !bool_decide_eq_true in Hh, Hl.
unfold fromCodePoint.
repeat case_bool_decide; simpl; try lia.
f_equal. f_equal; [|f_equal].
- assert ((first - 55296) * 1024 + (second - 56320) + 65536 - 65536
          = (second - 56320) + (first - 55296) * 1024)%Z as -> by lia.
  rewrite Z.div_add by lia. rewrite Z.div_small by lia. lia.
- assert ((first - 55296) * 1024 + (second - 56320) + 65536 - 65536
          = (second - 56320) + (first - 55296) * 1024)%Z as -> by lia.
  rewrite Z.mod_add by lia. rewrite Z.mod_small by lia. lia.
Qed.

Lemma scanChar_end text : scanChar text (length text) = Some newline.
Proof. unfold scanChar. rewrite bool_decide_eq_false_2 by lia. done. Qed.

Lemma unitsAt_length text i first :
length (unitsAt text i first) = 1 ∨
(length (unitsAt text i first) = 2 ∧ S i < length text).
Proof.
unfold unitsAt. destruct (text !! S i) as [second|] eqn:Hs; [|by left].
destruct (_ && _); [|by left].
right. split; [done|]. by eapply lookup_lt_Some.
Qed.

Lemma scanChar_length text i char :
scanChar text i = Some char → 1 ≤ length char ≤ 2.
Proof.
unfold scanChar, fromCodePoint. case_bool_decide.
- destruct (codePointAt text i); [|done].
  repeat case_bool_decide; simpl; intros; simplify_eq; simpl; lia.
- intros; simplify_eq. simpl. lia.
Qed.

Lemma scanChar_cases text i char :
wf text → i ≤ length text → scanChar text i = Some char →
(i = length text ∧ char = newline) ∨
(∃ first, text !! i = Some first ∧ char = unitsAt text i first
          ∧ i + length char ≤ length text).
Proof.
intros Hwf Hi Hc. destruct (decide (i = length text)) as [->|Hne].
- left. rewrite scanChar_end in Hc. by simplify_eq.
- right. destruct (lookup_lt_is_Some_2 text i) as [first Hf]; [lia|].
  exists first. rewrite (scanChar_lt _ _ _ Hwf Hf) in Hc. simplify_eq.
  split; [done|]. split; [done|].
  destruct (unitsAt_length text i first) as [->|[-> ?]]; lia.
Qed.

Lemma scanLoop_steps {S} (body : nat → jsstring → S → S) text fuel i st :
scanLoop body text fuel i st =
obind (scanSteps text fuel i)
      (λ tr, Done (foldl (λ s ic, body ic.1 ic.2 s) st tr)).
Proof.
revert i st. induction fuel as [|fuel IH]; intros i st; simpl.
- by case_bool_decide.
- case_bool_decide; [|done].
  destruct (scanChar text i) as [char|]; [|done].
  rewrite IH. by destruct (scanSteps text fuel (i + length char)).
Qed.

Lemma scanSteps_total text fuel i :
wf text → length text < i + fuel →
∃ tr, scanSteps text fuel i = Done tr ∧ steps text i tr.
Proof.
intros Hwf. revert i. induction fuel as [|fuel IH]; intros i Hfuel; simpl.
- rewrite bool_decide_eq_false_2 by lia.
  exists []. split; [done|]. constructor. lia.
- case_bool_decide as Hi.
  + destruct (decide (i = length text)) as [->|Hne].
    * rewrite scanChar_end.
      destruct (IH (length text + length newline)) as (tr & -> & Htr);
        [simpl; lia|].
      eexists. split; [done|].
      constructor; [lia|apply scanChar_end|done].
    * destruct (lookup_lt_is_Some_2 text i) as [first Hf]; [lia|].
      rewrite (scanChar_lt _ _ _ Hwf Hf).
      destruct (IH (i + length (unitsAt text i first))) as (tr & -> & Htr).
      { destruct (unitsAt_length text i first) as [->|[-> ?]]; lia. }
      eexists. split; [done|].
      constructor; [lia|by apply scanChar_lt|done].
  + exists []. split; [done|]. constructor. lia.
Qed.

Lemma steps_bounds text i tr :
steps text i tr →
∀ j c, (j, c) ∈ tr → i ≤ j ≤ length text ∧ scanChar text j = Some c.
Proof.
induction 1 as [|i char tr Hi Hc Htr IH]; intros j c Hin.
- by apply elem_of_nil in Hin.
- apply elem_of_cons in Hin as [?|Hin]; simplify_eq; [split; [lia|done]|].
  destruct (IH _ _ Hin) as [? ?]. split; [lia|done].
Qed.

Lemma steps_sorted text i tr :
steps text i tr → StronglySorted lt tr.*1.
Proof.
induction 1 as [|i char tr Hi Hc Htr IH]; simpl; constructor; [done|].
apply Forall_forall. intros j Hj.
apply list_elem_of_fmap in Hj as ([j' c] & -> & Hin).
apply (steps_bounds _ _ _ Htr) in Hin as [? _].
apply scanChar_length in Hc. simpl. lia.
Qed.

Lemma steps_head text i tr :
steps text i tr → i ≤ length text → ∃ c, tr !! 0 = Some (i, c).
Proof. destruct 1; [lia|]. eauto. Qed.

Lemma steps_chain text i tr :
wf text → steps text i tr →
∀ k j c, tr !! k = Some (j, c) →
  if decide (j < length text)
  then ∃ c', tr !! S k = Some (j + length c, c')
  else tr !! S k = None.
Proof.
intros Hwf. induction 1 as [|i char tr Hi Hc Htr IH]; intros k j c Hk.
- done.
- destruct k as [|k]; simpl in *.
  + simplify_eq.
    destruct (scanChar_cases _ _ _ Hwf Hi Hc) as [[-> ->]|(first & Hf & -> & Hle)].
    * rewrite decide_False by lia.
      inversion Htr; simplify_eq; [done|simpl in *; lia].
    * pose proof (lookup_lt_Some _ _ _ Hf).
      rewrite decide_True by lia.
      eapply steps_head; [done|lia].
  + by apply IH.
Qed.

Lemma steps_last text i tr :
wf text → steps text i tr → i ≤ length text →
last tr = Some (length text, newline).
Proof.
intros Hwf. induction 1 as [|i char tr Hi Hc Htr IH]; intros Hle; [lia|].
destruct (scanChar_cases _ _ _ Hwf Hi Hc) as [[-> ->]|(first & Hf & -> & Hle')].
- inversion Htr; simplify_eq; [done|simpl in *; lia].
- specialize (IH Hle'). rewrite last_cons, IH. done.
Qed.

Lemma unitsAt_pair text i first second :
text !! S i = Some second →
isHighSurrogate first = true → isLowSurrogate second = true →
unitsAt text i first = [first; second].
Proof. intros Hs Hh Hl. unfold unitsAt. by rewrite Hs, Hh, Hl. Qed.

Lemma unitsAt_two text i first :
length (unitsAt text i first) = 2 →
∃ second, text !! S i = Some second ∧ isLowSurrogate second = true.
Proof.
unfold unitsAt. destruct (text !! S i) as [second|]; [|done].
destruct (isHighSurrogate first); [|done].
destruct (isLowSurrogate second) eqn:Hl; [|done]. eauto.
Qed.

(** A step never lands between the two units of a surrogate pair that
  lies ahead of it. *)
Lemma steps_over_pair text i0 char i first second :
wf text → i0 ≤ length text → scanChar text i0 = Some char →
text !! i = Some first → text !! S i = Some second →
isHighSurrogate first = true → isLowSurrogate second = true →
i0 < i → i0 + length char ≤ i.
Proof.
intros Hwf Hle Hc Hf Hs Hh Hl Hlt.
destruct (scanChar_cases _ _ _ Hwf Hle Hc) as [[-> ->]|(f0 & Hf0 & -> & _)].
- apply lookup_lt_Some in Hf. lia.
- destruct (unitsAt_length text i0 f0) as [->|[Hlen _]]; [lia|].
  destruct (decide (S i0 = i)) as [<-|]; [|lia].
  apply unitsAt_two in Hlen as (s0 & Hs0 & Hl0). simplify_eq.
  by destruct (surrogates_disjoint first).
Qed.

Lemma steps_pair_visited text i0 tr i first second :
wf text → steps text i0 tr →
text !! i = Some first → text !! S i = Some second →
isHighSurrogate first = true → isLowSurrogate second = true →
i0 ≤ i → (i, [first; second]) ∈ tr.
Proof.
intros Hwf Hst Hf Hs Hh Hl. induction Hst as [|i0 char tr Hi Hc Htr IH]; intros Hle.
- apply lookup_lt_Some in Hf. lia.
- destruct (decide (i0 = i)) as [->|Hne].
  + rewrite (scanChar_lt _ _ _ Hwf Hf) in Hc.
    rewrite (unitsAt_pair _ _ _ _ Hs Hh Hl) in Hc. simplify_eq. left.
  + right. apply IH.
    eapply steps_over_pair; eauto. lia.
Qed.

Lemma steps_pair_not_split text i0 tr i first second :
wf text → steps text i0 tr →
text !! i = Some first → text !! S i = Some second →
isHighSurrogate first = true → isLowSurrogate second = true →
i0 ≤ i → S i ∉ tr.*1.
Proof.
intros Hwf Hst Hf Hs Hh Hl. induction Hst as [|i0 char tr Hi Hc Htr IH]; intros Hle.
- simpl. apply not_elem_of_nil.
- simpl. apply not_elem_of_cons. split; [lia|].
  destruct (decide (i0 = i)) as [->|Hne].
  + rewrite (scanChar_lt _ _ _ Hwf Hf) in Hc.
    rewrite (unitsAt_pair _ _ _ _ Hs Hh Hl) in Hc. simplify_eq.
    intros Hin. apply list_elem_of_fmap in Hin as ([j c] & Hj & Hin).
    apply (steps_bounds _ _ _ Htr) in Hin as [? _]. simpl in *. lia.
  + apply IH. eapply steps_over_pair; eauto. lia.
Qed.

Lemma foldl_record (tr acc : list (nat * jsstring)) :
foldl (λ s ic, s ++ [(ic.1, ic.2)]) acc tr = acc ++ tr.
Proof.
revert acc. induction tr as [|[i c] tr IH]; intros acc; simpl.
- by rewrite app_nil_r.
- rewrite IH. by rewrite <- app_assoc.
Qed.

(** C7: on every well-formed UTF-16 string, also one with unpaired
  surrogates, the scan loop terminates without throwing, whatever its
  body does; its iterations visit strictly increasing indices starting at
  0; an iteration at an index inside the window reads the whole code point
  that starts there (both units of a surrogate pair, a single unit
  otherwise) and the next iteration starts right after it; the second
  unit of a surrogate pair is never an iteration of its own; and the last
    iteration, the only one outside the window, is at [length text] with
    the synthetic newline.  The scan of the linker and the scan of the
    glossary return the state reached by running their loop body over
    exactly these iterations, in this order. *)
Theorem scan_loop_total_code_point_steps (text : jsstring) :
wf text →
∃ trace : list (nat * jsstring),
  scanTrace text = Done trace
  ∧ (∀ (S : Type) (body : nat → jsstring → S → S) (st : S),
       scanLoop body text (scanFuel text) 0 st
       = Done (foldl (λ s ic, body ic.1 ic.2 s) st trace))
  ∧ (∀ (C : Type) (ops : PrefixTreeOps C) settings mappedFile winFrom (c : C),
       Linker.scan settings mappedFile text winFrom c
       = Done (foldl (λ s ic, Linker.scanBody settings mappedFile text
                                winFrom ic.1 ic.2 s)
                     (Linker.mkScanState c 0 []) trace)
       ∧ Glossary.scan text winFrom c
         = Done (foldl (λ s ic, Glossary.scanBody text winFrom ic.1 ic.2 s)
                       (Glossary.mkScanState c 0 []) trace))
  ∧ StronglySorted lt trace.*1
  ∧ (∃ char, trace !! 0 = Some (0, char))
  ∧ (∀ k i char, trace !! k = Some (i, char) →
       if decide (i < length text)
       then ∃ first, text !! i = Some first
              ∧ char = unitsAt text i first
              ∧ ∃ char', trace !! S k = Some (i + length char, char')
       else i = length text ∧ char = newline ∧ trace !! S k = None)
  ∧ (∀ i first second,
       text !! i = Some first → text !! S i = Some second →
       isHighSurrogate first = true → isLowSurrogate second = true →
       (i, [first; second]) ∈ trace ∧ S i ∉ trace.*1)
  ∧ (∀ i first char,
       (i, char) ∈ trace → text !! i = Some first →
       (isHighSurrogate first = false
        ∨ ∀ second, text !! S i = Some second → isLowSurrogate second = false) →
       char = [first])
  ∧ last trace = Some (length text, newline).
Proof.
intros Hwf.
destruct (scanSteps_total text (scanFuel text) 0 Hwf) as (tr & Hrun & Hst);
  [unfold scanFuel; lia|].
assert (∀ (S : Type) (body : nat → jsstring → S → S) (st : S),
          scanLoop body text (scanFuel text) 0 st
          = Done (foldl (λ s ic, body ic.1 ic.2 s) st tr)) as Hloop.
{ intros S body st. by rewrite scanLoop_steps, Hrun. }
exists tr. repeat split.
- unfold scanTrace. rewrite Hloop. by rewrite foldl_record.
- done.
- unfold Linker.scan. by rewrite Hloop.
- unfold Glossary.scan. by rewrite Hloop.
- by eapply steps_sorted.
- eapply steps_head; [done|lia].
- intros k i char Hk.
  pose proof (steps_chain _ _ _ Hwf Hst _ _ _ Hk) as Hnext.
  destruct (steps_bounds _ _ _ Hst i char) as [[_ Hi] Hc].
  { eapply list_elem_of_lookup_2; eauto. }
  destruct (scanChar_cases _ _ _ Hwf Hi Hc) as [[-> ->]|(first & Hf & -> & _)].
  + rewrite decide_False in Hnext |- * by lia. done.
  + pose proof (lookup_lt_Some _ _ _ Hf).
    rewrite decide_True in Hnext |- * by lia. eauto.
- eapply steps_pair_visited; eauto. lia.
- eapply steps_pair_not_split; eauto. lia.
- intros i first char Hin Hf Hlone.
  destruct (steps_bounds _ _ _ Hst i char Hin) as [_ Hc].
  rewrite (scanChar_lt _ _ _ Hwf Hf) in Hc. simplify_eq.
  unfold unitsAt. destruct (text !! S i) as [second|] eqn:Hs; [|done].
  destruct Hlone as [->|Hl]; [done|].
  rewrite (Hl second) by done. by rewrite andb_false_r.
- eapply steps_last; eauto. lia.
Qed.

(** The loop on ["a"], a surrogate pair, a lone high surrogate, ["A"] and
  a lone low surrogate. *)
Lemma scan_loop_total_code_point_steps_witness :
∃ trace,
  scanTrace [97; 0xD83D; 0xDE00; 0xD83D; 65; 0xDE00]%Z = Done trace
  ∧ last trace = Some (6, newline).
Proof.
destruct (scan_loop_total_code_point_steps
            [97; 0xD83D; 0xDE00; 0xD83D; 65; 0xDE00]%Z)
  as (trace & Hrun & _ & _ & _ & _ & _ & _ & _ & Hlast).
- unfold wf. repeat constructor; lia.
- exists trace. split; [exact Hrun|exact Hlast].
Defined.

End scan_loop.

(** ** Stable sorting *)
Section array_sort_facts.
Context {A : Type} (compare : A → A → Z).
Local Abbreviation R := (λ x y : A, (compare x y ≤ 0)%Z).
Hypothesis compare_total : ∀ x y, R x y ∨ R y x.
Hypothesis compare_trans : ∀ x y z, R x y → R y z → R x z.

Lemma sortInsert_perm x l : sortInsert compare x l ≡ₚ x :: l.
Proof.
  induction l as [|y l IH]; simpl; [done|].
  case_bool_decide; [done|]. rewrite IH. apply Permutation_swap.
Qed.

Lemma arraySort_perm l : arraySort compare l ≡ₚ l.
Proof.
  induction l as [|x l IH]; simpl; [done|].
  by rewrite sortInsert_perm, IH.
Qed.

Lemma sortInsert_sorted x l :
  StronglySorted R l → StronglySorted R (sortInsert compare x l).
Proof.
  induction 1 as [|y l Hl IH Hy]; simpl.
  - repeat constructor.
  - case_bool_decide as Hxy.
    + constructor; [by constructor|].
      constructor; [done|].
      eapply Forall_impl; [exact Hy|]. intros z Hz. by eapply compare_trans.
    + constructor; [done|].
      rewrite sortInsert_perm. constructor; [|done].
      destruct (compare_total x y); [done|done].
Qed.

Lemma arraySort_sorted l : StronglySorted R (arraySort compare l).
Proof.
  induction l as [|x l IH]; simpl; [constructor|].
  by apply sortInsert_sorted.
Qed.
End array_sort_facts.

Lemma StronglySorted_lookup {A} (R : relation A) l i j a b :
  StronglySorted R l → i < j → l !! i = Some a → l !! j = Some b → R a b.
Proof.
  intros Hl. revert i j. induction Hl as [|x l Hl IH Hx]; intros i j Hij Hi Hj.
  - done.
  - destruct j as [|j]; [lia|]. destruct i as [|i]; simpl in *.
    + simplify_eq. rewrite Forall_forall in Hx. apply Hx.
      by eapply list_elem_of_lookup_2.
    + eapply (IH i j); [lia|done..].
Qed.

Lemma StronglySorted_weaken {A} (R R' : relation A) l :
  (∀ a b, R a b → R' a b) → StronglySorted R l → StronglySorted R' l.
Proof.
  intros HR. induction 1 as [|x l Hl IH Hx]; constructor; [done|].
  eapply Forall_impl; [exact Hx|]. intros b. apply HR.
Qed.

Lemma StronglySorted_filter_lookup {A} (R : relation A) (P : A → Prop)
    `{∀ x, Decision (P x)} l :
  (∀ i j a b, i < j → l !! i = Some a → l !! j = Some b → P a → P b → R a b) →
  StronglySorted R (filter P l).
Proof.
  induction l as [|x l IH]; intros HR; [constructor|].
  rewrite filter_cons. 
  assert (StronglySorted R (filter P l)) as Hrest.
  { apply IH. intros i j a b Hij Hi Hj. apply (HR (S i) (S j)); [lia|done..]. }
  case_decide as Hx; [|done].
  constructor; [done|]. apply Forall_forall. intros b Hb.
  apply list_elem_of_filter in Hb as [HPb Hb].
  apply list_elem_of_lookup in Hb as [j Hj].
  by apply (HR 0 (S j) x b); [lia|..].
Qed.

(** ** Overlap resolution *)
Section resolver.
Context {W : Type}.
Implicit Types (a b : Addition W) (l : list (Addition W)).
Implicit Types del : gmap nat bool.

Lemma before_spec a b :
  before a b ↔ (from a < from b ∨ (from a = from b ∧ to b ≤ to a))%Z.
Proof. unfold before, Linker.compareAdditions. case_bool_decide; lia. Qed.

Lemma before_total a b : before a b ∨ before b a.
Proof. rewrite !before_spec. lia. Qed.

Lemma before_trans a b c : before a b → before b c → before a c.
Proof. rewrite !before_spec. lia. Qed.

Lemma before_from a b : before a b → (from a ≤ from b)%Z.
Proof. rewrite before_spec. lia. Qed.

Lemma sorted_before l :
  StronglySorted before (arraySort Linker.compareAdditions l).
Proof. apply arraySort_sorted; [apply before_total|apply before_trans]. Qed.

Lemma markOverlapping_lookup a l del k :
  StronglySorted (λ b c, (from b ≤ from c)%Z) l →
  is_Some (Linker.markOverlapping a l del !! k) ↔
  is_Some (del !! k) ∨ ∃ b, b ∈ l ∧ id b = k ∧ (from b < to a)%Z.
Proof.
  intros Hl. revert del.
  induction Hl as [|o l Hl IH Ho]; intros del; simpl.
  - split; [by left|]. intros [?|(b & Hb & _)]; [done|].
    by apply elem_of_nil in Hb.
  - case_bool_decide as Hbreak.
    + split; [by left|]. intros [?|(b & Hb & _ & Hlt)]; [done|].
      apply elem_of_cons in Hb as [->|Hb]; [lia|].
      rewrite Forall_forall in Ho. specialize (Ho _ Hb). lia.
    + rewrite IH, lookup_insert_is_Some. split.
      * intros [[<-|[_ ?]]|(b & Hb & ? & ?)].
        -- right. exists o. split; [left|]. split; [done|lia].
        -- by left.
        -- right. exists b. split; [by right|done].
      * intros [?|(b & Hb & Hk & Hlt)].
        -- destruct (decide (id o = k)); [left; by left|].
           left. right. done.
        -- apply elem_of_cons in Hb as [->|Hb].
           ++ left. by left.
           ++ right. eauto.
Qed.

Lemma markAll_lookup l del k :
  StronglySorted (λ b c, (from b ≤ from c)%Z) l →
  is_Some (Linker.markAll l del !! k) ↔
  is_Some (del !! k) ∨
  ∃ i j a b, i < j ∧ l !! i = Some a ∧ l !! j = Some b
             ∧ id b = k ∧ (from b < to a)%Z.
Proof.
  intros Hl. revert del.
  induction Hl as [|a0 l Hl IH Ha]; intros del; simpl.
  - split; [by left|]. by intros [?|(i & j & a & b & _ & ? & _)].
  - rewrite IH, markOverlapping_lookup by done. split.
    + intros [[?|(b & Hb & Hk & Hlt)]|(i & j & a & b & Hij & Hi & Hj & Hk & Hlt)].
      * by left.
      * right. apply list_elem_of_lookup in Hb as [j Hj].
        exists 0, (S j), a0, b. split; [lia|done].
      * right. exists (S i), (S j), a, b. split; [lia|done].
    + intros [?|(i & j & a & b & Hij & Hi & Hj & Hk & Hlt)]; [by left; left|].
      destruct j as [|j]; [lia|]. destruct i as [|i]; simpl in *.
      * simplify_eq. left. right. exists b.
        split; [by eapply list_elem_of_lookup_2|done].
      * right. exists i, j, a, b. split; [lia|done].
Qed.

Lemma sorted_from l :
  StronglySorted (λ b c, (from b ≤ from c)%Z)
    (arraySort Linker.compareAdditions l).
Proof.
  eapply StronglySorted_weaken; [|apply sorted_before].
  intros a b. apply before_from.
Qed.

(** An addition is kept exactly when its id was not marked, and an id is
    marked exactly when some addition carrying it starts before the end
    of an addition that precedes it in the sorted list. *)
Lemma resolveOverlaps_elem l b :
  b ∈ Linker.resolveOverlaps l ↔
  b ∈ l ∧
  ¬ ∃ i j a b', i < j
      ∧ arraySort Linker.compareAdditions l !! i = Some a
      ∧ arraySort Linker.compareAdditions l !! j = Some b'
      ∧ id b' = id b ∧ (from b' < to a)%Z.
Proof.
  assert (b ∈ arraySort Linker.compareAdditions l ↔ b ∈ l) as Hperm.
  { by rewrite (arraySort_perm Linker.compareAdditions l). }
  unfold Linker.resolveOverlaps. rewrite list_elem_of_filter, Hperm.
  rewrite eq_None_not_Some, markAll_lookup by apply sorted_from.
  split.
  - intros [Hn ?]. split; [done|]. intros Hex. apply Hn. by right.
  - intros [? Hn]. split; [|done]. intros [Hemp|?]; [|by apply Hn].
    rewrite lookup_empty in Hemp. by destruct Hemp.
Qed.

Lemma resolveOverlaps_disjoint l :
  StronglySorted (λ a b, (from a ≤ from b)%Z ∧ (to a ≤ from b)%Z)
    (Linker.resolveOverlaps l).
Proof.
  unfold Linker.resolveOverlaps.
  apply StronglySorted_filter_lookup. intros i j a b Hij Hi Hj _ Hb.
  split.
  - by apply (StronglySorted_lookup (λ b c, (from b ≤ from c)%Z) _ i j a b
                (sorted_from l)).
  - apply eq_None_not_Some in Hb.
    rewrite markAll_lookup in Hb by apply sorted_from.
    destruct (decide (to a ≤ from b)%Z) as [|Hlt]; [done|].
    destruct Hb. right. exists i, j, a, b. repeat split; [done..|lia].
Qed.

Lemma sorted_ids_NoDup l :
  NoDup (id <$> l) → NoDup (id <$> arraySort Linker.compareAdditions l).
Proof. by rewrite (arraySort_perm Linker.compareAdditions l). Qed.

Lemma NoDup_ids_lookup l i j a b :
  NoDup (id <$> l) → l !! i = Some a → l !! j = Some b → id a = id b → i = j.
Proof.
  intros Hnd Hi Hj Hid.
  eapply (NoDup_lookup _ _ _ (id a) Hnd).
  - by rewrite list_lookup_fmap, Hi.
  - by rewrite list_lookup_fmap, Hj, Hid.
Qed.

(** With distinct ids, the addition at position [j] of the sorted list is
    kept exactly when every addition before it ends at or before its
    start. *)
Lemma resolveOverlaps_kept_iff l j b :
  NoDup (id <$> l) →
  arraySort Linker.compareAdditions l !! j = Some b →
  b ∈ Linker.resolveOverlaps l ↔
  ∀ i a, i < j → arraySort Linker.compareAdditions l !! i = Some a →
         (to a ≤ from b)%Z.
Proof.
  intros Hnd Hj. rewrite resolveOverlaps_elem. split.
  - intros [_ Hn] i a Hij Hi.
    destruct (decide (to a ≤ from b)%Z) as [|Hlt]; [done|].
    destruct Hn. exists i, j, a, b. repeat split; [done..|lia].
  - intros Hall. split.
    + rewrite <- (arraySort_perm Linker.compareAdditions l).
      by eapply list_elem_of_lookup_2.
    + intros (i & j' & a & b' & Hij & Hi & Hj' & Hid & Hlt).
      assert (j' = j) as ->.
      { eapply NoDup_ids_lookup; [by apply sorted_ids_NoDup|done..]. }
      simplify_eq. specialize (Hall i a Hij Hi). lia.
Qed.
End resolver.

Lemma resolveOverlaps_same {W} (l : list (Addition W)) :
  Glossary.resolveOverlaps l = Linker.resolveOverlaps l.
Proof. reflexivity. Qed.

(** C9: the overlap resolution of the linker and that of the glossary are
    the same function: on every candidate list both return the same
    subsequence of the sorted candidates. *)
Theorem resolveOverlaps_linker_glossary_equal {W} (l : list (Addition W)) :
  Linker.resolveOverlaps l = Glossary.resolveOverlaps l.
Proof.
  unfold Linker.resolveOverlaps, Glossary.resolveOverlaps.
  assert (∀ a b : Addition W,
            Linker.compareAdditions a b = Glossary.compareAdditions a b) as Hcmp
    by done.
  assert (∀ (a : Addition W) others del,
            Linker.markOverlapping a others del
            = Glossary.markOverlapping a others del) as Hinner.
  { intros a others. induction others as [|o others IH]; intros del; simpl; [done|].
    case_bool_decide; [done|]. apply IH. }
  assert (∀ (s : list (Addition W)) del,
            Linker.markAll s del = Glossary.markAll s del) as Houter.
  { induction s as [|a s IH]; intros del; simpl; [done|].
    by rewrite Hinner, IH. }
  by rewrite Houter.
Qed.

(** ** Decorations of one visible range *)
Section decorations.
Context {W : Type}.

Lemma decorations_sorted_disjoint (P : Addition W → Prop)
    `{∀ a, Decision (P a)} (l : list (Addition W)) :
  let ds := Linker.decorationOf <$> filter P (Linker.resolveOverlaps l) in
  sortedByFrom ds ∧ pairwiseNonOverlapping ds.
Proof.
  intros ds.
  assert (∀ i j a b, i < j → ds !! i = Some a → ds !! j = Some b →
            (decoFrom a ≤ decoFrom b)%Z ∧ (decoTo a ≤ decoFrom b)%Z) as Hds.
  { intros i j a b Hij Hi Hj.
    assert (StronglySorted
              (λ a b : Addition W, (from a ≤ from b)%Z ∧ (to a ≤ from b)%Z)
              (filter P (Linker.resolveOverlaps l))) as Hsorted.
    { apply StronglySorted_filter_lookup. intros i' j' a' b' Hij' Hi' Hj' _ _.
      by apply (StronglySorted_lookup _ _ i' j' a' b'
                  (resolveOverlaps_disjoint l)). }
    subst ds. rewrite list_lookup_fmap in Hi, Hj.
    destruct (filter P _ !! i) as [a'|] eqn:Hi'; [|done].
    destruct (filter P _ !! j) as [b'|] eqn:Hj'; [|done].
    simpl in *. simplify_eq.
    by apply (StronglySorted_lookup _ _ i j a' b' Hsorted). }
  split.
  - intros i j a b Hij Hi Hj. by destruct (Hds i j a b).
  - intros i j a b Hij Hi Hj [Hab Hba].
    destruct (decide (i < j)).
    + destruct (Hds i j a b) as [_ ?]; [done..|]. lia.
    + destruct (Hds j i b a) as [_ ?]; [lia|done..|]. lia.
Qed.
End decorations.

(** C1: the ranges added to the builder for one visible range are sorted
    by [from] and pairwise non-overlapping, whatever the candidates, the
    settings, the syntax nodes and the cursor are; in particular for the
    candidates that the scan of any window finds with any cache. *)
Theorem decorations_sorted_and_non_overlapping :
  (∀ (W : Type) settings st viewIsActive winFrom winTo
     (additions : list (Addition W)),
     sortedByFrom
       (Linker.rangeDecorations settings st viewIsActive winFrom winTo additions)
     ∧ pairwiseNonOverlapping
       (Linker.rangeDecorations settings st viewIsActive winFrom winTo additions))
  ∧ (∀ (W : Type) st winFrom winTo (additions : list (Addition W)),
       sortedByFrom (Glossary.rangeDecorations st winFrom winTo additions)
       ∧ pairwiseNonOverlapping
           (Glossary.rangeDecorations st winFrom winTo additions))
  ∧ (∀ (C : Type) (ops : PrefixTreeOps C) settings v mappedFile viewIsActive
       (c c' : C) range ds,
       Linker.decorateRange settings v mappedFile viewIsActive c range
         = Done (c', ds) →
       sortedByFrom ds ∧ pairwiseNonOverlapping ds)
  ∧ (∀ (C : Type) (ops : PrefixTreeOps C) v (c c' : C) range ds,
       Glossary.decorateRange v c range = Done (c', ds) →
       sortedByFrom ds ∧ pairwiseNonOverlapping ds).
Proof.
  assert (∀ (W : Type) settings st viewIsActive winFrom winTo
            (additions : list (Addition W)),
            sortedByFrom
              (Linker.rangeDecorations settings st viewIsActive winFrom winTo
                 additions)
            ∧ pairwiseNonOverlapping
                (Linker.rangeDecorations settings st viewIsActive winFrom winTo
                   additions)) as HL.
  { intros. apply decorations_sorted_disjoint. }
  assert (∀ (W : Type) st winFrom winTo (additions : list (Addition W)),
            sortedByFrom (Glossary.rangeDecorations st winFrom winTo additions)
            ∧ pairwiseNonOverlapping
                (Glossary.rangeDecorations st winFrom winTo additions)) as HG.
  { intros. unfold Glossary.rangeDecorations.
    rewrite resolveOverlaps_same. apply decorations_sorted_disjoint. }
  split; [exact HL|]. split; [exact HG|]. split.
  - intros C ops settings v mappedFile viewIsActive c c' [winFrom winTo] ds.
    unfold Linker.decorateRange.
    destruct (Linker.scan _ _ _ _ _) as [s| |]; simpl; [|done..].
    intros ?; simplify_eq. apply HL.
  - intros C ops v c c' [winFrom winTo] ds.
    unfold Glossary.decorateRange.
    destruct (Glossary.scan _ _ _) as [s| |]; simpl; [|done..].
    intros ?; simplify_eq. apply HG.
Qed.

Import Examples.

(** The window ["I love my Notebook today"] with the notes ["Note"] and
    ["Notebook"], matching inside words. *)
Lemma decorations_sorted_and_non_overlapping_witness :
  ∃ c' ds,
    Linker.decorateRange subWords (plainView "I love my Notebook today" 0)
      None true (LinkerCache.ofVault [note "Note"; note "Notebook"]) (0, 24)%Z
    = Done (c', ds)
    ∧ (λ d, (decoFrom d, decoTo d)) <$> ds = [(10, 18)%Z]
    ∧ sortedByFrom ds ∧ pairwiseNonOverlapping ds.
Proof.
  eexists _, _. split; [vm_compute; reflexivity|].
  split; [reflexivity|].
  eapply (proj1 (proj2 (proj2 decorations_sorted_and_non_overlapping))
            _ _ subWords (plainView "I love my Notebook today" 0) None true
            (LinkerCache.ofVault [note "Note"; note "Notebook"]) _ (0, 24)%Z).
  vm_compute. reflexivity.
Defined.

(** ** What the resolver keeps *)
Section kept.
Context {W : Type}.
Implicit Types (a b c : Addition W) (l : list (Addition W)).

Lemma sorted_lookup_before l i j a b :
  i < j →
  arraySort Linker.compareAdditions l !! i = Some a →
  arraySort Linker.compareAdditions l !! j = Some b →
  before a b.
Proof.
  intros Hij Hi Hj.
  exact (StronglySorted_lookup before _ i j a b (sorted_before l) Hij Hi Hj).
Qed.

Lemma sorted_elem_lookup l a :
  a ∈ l → ∃ i, arraySort Linker.compareAdditions l !! i = Some a.
Proof.
  intros Ha. apply list_elem_of_lookup.
  by rewrite (arraySort_perm Linker.compareAdditions l).
Qed.

Lemma shorter_span_dropped l c2 c :
  c2 ∈ l → from c = from c2 → (to c < to c2)%Z → (from c2 < to c2)%Z →
  c ∉ Linker.resolveOverlaps l.
Proof.
  intros Hc2 Hfrom Hto Hne Hc.
  apply resolveOverlaps_elem in Hc as [Hc Hn]. apply Hn.
  apply sorted_elem_lookup in Hc as [j Hj].
  apply sorted_elem_lookup in Hc2 as [i Hi].
  exists i, j, c2, c. repeat split; [|done..|lia].
  destruct (decide (i < j)) as [|Hge]; [done|].
  destruct (decide (i = j)) as [->|]; [simplify_eq; lia|].
  assert (before c c2) as Hb by (eapply (sorted_lookup_before l j i); [lia|done..]).
  apply before_spec in Hb. lia.
Qed.

Lemma unpreceded_kept l c2 :
  NoDup (id <$> l) → c2 ∈ l →
  (∀ c', c' ∈ l → id c' ≠ id c2 →
     (to c' ≤ from c2)%Z ∨ (from c2 < from c')%Z
     ∨ (from c' = from c2 ∧ (to c' < to c2)%Z)) →
  c2 ∈ Linker.resolveOverlaps l.
Proof.
  intros Hnd Hc2 Hothers.
  destruct (sorted_elem_lookup _ _ Hc2) as [j Hj].
  apply (resolveOverlaps_kept_iff l j c2 Hnd Hj). intros i a Hij Hi.
  assert (a ∈ l) as Ha.
  { rewrite <- (arraySort_perm Linker.compareAdditions l).
    by eapply list_elem_of_lookup_2. }
  assert (id a ≠ id c2) as Hid.
  { intros Heq.
    assert (i = j); [|lia].
    eapply NoDup_ids_lookup; [by apply sorted_ids_NoDup|done..]. }
  pose proof (sorted_lookup_before l i j a c2 Hij Hi Hj) as Hb.
  apply before_spec in Hb.
  destruct (Hothers a Ha Hid) as [?|[?|[? ?]]]; lia.
Qed.
End kept.

(** C2 (amended): with distinct ids, a candidate of the sorted list is
    dropped exactly when it starts before the end of some candidate that
    precedes it in the sorted list, whether or not that predecessor is
    itself kept; so every non-empty candidate that overlaps no predecessor
    at all is in the resolver's output. *)
Theorem dropped_iff_overlaps_any_predecessor {W} (l : list (Addition W))
    (j : nat) (b : Addition W) :
  NoDup (id <$> l) →
  arraySort Linker.compareAdditions l !! j = Some b →
  (b ∉ Linker.resolveOverlaps l ↔
   ∃ i a, i < j ∧ arraySort Linker.compareAdditions l !! i = Some a
          ∧ (from b < to a)%Z)
  ∧ ((from b < to b)%Z →
     (∀ i a, i < j → arraySort Linker.compareAdditions l !! i = Some a →
             ¬ overlappingAdditions b a) →
     b ∈ Linker.resolveOverlaps l).
Proof.
  intros Hnd Hj.
  pose proof (resolveOverlaps_kept_iff l j b Hnd Hj) as Hkept. split.
  - rewrite Hkept. split.
    + intros Hn.
      destruct (decide (Exists (λ a, (from b < to a)%Z)
                  (take j (arraySort Linker.compareAdditions l))))
        as [Hex|Hno].
      { apply Exists_exists in Hex as (a & Ha & Hlt).
        apply elem_of_take in Ha as (i & Hi & Hij). by exists i, a. }
      destruct Hn. intros i a Hij Hi.
      destruct (decide (to a ≤ from b)%Z); [done|].
      destruct Hno. apply Exists_exists. exists a. split; [|lia].
      apply elem_of_take. by exists i.
    + intros (i & a & Hij & Hi & Hlt) Hall. specialize (Hall i a Hij Hi). lia.
  - intros Hne Hnone. apply Hkept. intros i a Hij Hi.
    destruct (decide (to a ≤ from b)%Z) as [|Hlt]; [done|].
    destruct (Hnone i a Hij Hi).
    pose proof (sorted_lookup_before l i j a b Hij Hi Hj) as Hb.
    apply before_from in Hb. unfold overlappingAdditions. lia.
Qed.


(** The candidates of ["a b c d e"] for the notes ["a b"], ["b c d"] and
    ["d e"], whole words only. *)
Lemma dropped_iff_overlaps_any_predecessor_witness :
  let l := candidates wholeWords "a b c d e" ["a b"; "b c d"; "d e"] in
  spans l = [(0, 3); (2, 7); (6, 9)]%Z
  ∧ spans (Linker.resolveOverlaps l) = [(0, 3)%Z]
  ∧ ∃ b, arraySort Linker.compareAdditions l !! 2 = Some b
         ∧ b ∉ Linker.resolveOverlaps l.
Proof.
  intros l. split; [vm_compute; reflexivity|].
  split; [vm_compute; reflexivity|].
  assert (NoDup (id <$> l)) as Hnd.
  { assert (id <$> l = [0; 1; 2]) as -> by (vm_compute; reflexivity).
    repeat (apply NoDup_cons_2;
              [rewrite ?not_elem_of_cons; repeat split;
               (lia || apply not_elem_of_nil)|]).
    apply NoDup_nil_2. }
  eexists. split; [vm_compute; reflexivity|].
  refine (proj2 (proj1 (dropped_iff_overlaps_any_predecessor l 2 _ Hnd _)) _).
  - vm_compute. reflexivity.
  - eexists 1, _. split; [lia|]. split; [vm_compute; reflexivity|].
    vm_compute. reflexivity.
Defined.


(** C2, as stated, fails: in ["a b c d e"] with the notes ["a b"],
    ["b c d"] and ["d e"] the candidate for ["d e"] overlaps only the
    candidate for ["b c d"], which is itself dropped, and yet it is
    dropped. *)
Lemma dropped_only_by_kept_counterexample :
  let l := candidates wholeWords "a b c d e" ["a b"; "b c d"; "d e"] in
  spans l = [(0, 3); (2, 7); (6, 9)]%Z
  ∧ spans (Linker.resolveOverlaps l) = [(0, 3)%Z]
  ∧ ¬ droppedOnlyByKept l.
Proof.
  intros l. split; [vm_compute; reflexivity|].
  split; [vm_compute; reflexivity|].
  intros Hclaim.
  assert (∃ a0 a1 a2,
            arraySort Linker.compareAdditions l = [a0; a1; a2]
            ∧ Linker.resolveOverlaps l = [a0]
            ∧ (from a0, to a0, from a2, to a2) = (0, 3, 6, 9)%Z
            ∧ (id a0, id a2) = (0, 2)) as (a0 & a1 & a2 & Hs & Hr & Hv & Hid).
  { eexists _, _, _. split; [vm_compute; reflexivity|].
    split; [vm_compute; reflexivity|]. split; vm_compute; reflexivity. }
  unfold droppedOnlyByKept in Hclaim. rewrite Hs, Hr in Hclaim.
  clear Hs Hr. clearbody l.
  injection Hv as Hf0 Ht0 Hf2 Ht2. injection Hid as Hid0 Hid2.
  specialize (Hclaim 2 a2 eq_refl).
  assert (a2 ∈ [a0]) as Hin.
  { apply Hclaim. intros i a _ _ Ha.
    apply list_elem_of_singleton in Ha as ->.
    unfold overlappingAdditions. lia. }
  apply list_elem_of_singleton in Hin. subst a2. lia.
Qed.

(** C3 (amended): of two candidates that start at the same offset, the
    span of the shorter one is never in the resolver's output; the longer
    one is in the output provided every other candidate ends at or before
    its start, starts after its start, or starts with it and is strictly
    shorter, that is, unless a candidate that precedes it in the sorted
    list reaches into it. *)
Theorem longest_match_kept_unless_preceded {W} (l : list (Addition W))
    (c1 c2 : Addition W) :
  NoDup (id <$> l) →
  c1 ∈ l → c2 ∈ l →
  from c1 = from c2 → (to c1 < to c2)%Z → (from c2 < to c2)%Z →
  (∀ c, c ∈ Linker.resolveOverlaps l → ¬ (from c = from c1 ∧ to c = to c1))
  ∧ ((∀ c', c' ∈ l → id c' ≠ id c2 →
        (to c' ≤ from c2)%Z ∨ (from c2 < from c')%Z
        ∨ (from c' = from c2 ∧ (to c' < to c2)%Z)) →
     c2 ∈ Linker.resolveOverlaps l).
Proof.
  intros Hnd Hc1 Hc2 Hfrom Hto Hne. split.
  - intros c Hc [Hcf Hct].
    apply (shorter_span_dropped l c2 c); [done|congruence|lia|done|done].
  - by apply unpreceded_kept.
Qed.

(** ["I love my Notebook today"] with the notes ["Note"] and
    ["Notebook"], matching inside words: the candidates are the two
    matches at offset 10, and only the longer one is kept. *)
Lemma longest_match_kept_unless_preceded_witness :
  let l := candidates subWords "I love my Notebook today" ["Note"; "Notebook"] in
  spans l = [(10, 14); (10, 18)]%Z
  ∧ spans (Linker.resolveOverlaps l) = [(10, 18)%Z]
  ∧ ∃ c1 c2, l = [c1; c2]
      ∧ (∀ c, c ∈ Linker.resolveOverlaps l →
              ¬ (from c = from c1 ∧ to c = to c1))
      ∧ c2 ∈ Linker.resolveOverlaps l.
Proof.
  intros l. split; [vm_compute; reflexivity|].
  split; [vm_compute; reflexivity|].
  assert (∃ c1 c2, l = [c1; c2]
            ∧ (id c1, id c2) = (0, 1)
            ∧ (from c1, to c1, from c2, to c2) = (10, 14, 10, 18)%Z)
    as (c1 & c2 & Hl & Hid & Hv).
  { eexists _, _. split; [vm_compute; reflexivity|].
    split; vm_compute; reflexivity. }
  exists c1, c2. split; [exact Hl|].
  assert (Linker.resolveOverlaps l = Linker.resolveOverlaps [c1; c2]) as Hr
    by (by rewrite <- Hl).
  rewrite Hr. clear Hr. clearbody l. subst l.
  injection Hid as Hid1 Hid2. injection Hv as Hf1 Ht1 Hf2 Ht2.
  assert (NoDup (id <$> [c1; c2])) as Hnd.
  { simpl. rewrite Hid1, Hid2.
    repeat (apply NoDup_cons_2;
              [rewrite ?not_elem_of_cons; repeat split;
               (lia || apply not_elem_of_nil)|]).
    apply NoDup_nil_2. }
  assert (c1 ∈ [c1; c2]) as Hc1 by left.
  assert (c2 ∈ [c1; c2]) as Hc2 by (right; left).
  destruct (longest_match_kept_unless_preceded [c1; c2] c1 c2 Hnd Hc1 Hc2)
    as [Hshort Hlong]; [lia..|].
  split; [exact Hshort|].
  apply Hlong. intros c' Hc' Hne.
  apply elem_of_cons in Hc' as [->|Hc'].
  - right. right. lia.
  - apply list_elem_of_singleton in Hc' as ->. done.
Defined.


(** C3, as stated, fails: in ["a b c d"] with the notes ["a b"], ["b c"]
    and ["b c d"], whole words only, the matches of ["b c"] and ["b c d"]
    both start at offset 2, and the output holds neither of them, because
    the match of ["a b"] starts earlier and reaches into both. *)
Lemma longest_match_kept_counterexample :
  let l := candidates wholeWords "a b c d" ["a b"; "b c"; "b c d"] in
  spans l = [(0, 3); (2, 5); (2, 7)]%Z
  ∧ spans (Linker.resolveOverlaps l) = [(0, 3)%Z]
  ∧ ¬ longestMatchKept l.
Proof.
  intros l. split; [vm_compute; reflexivity|].
  split; [vm_compute; reflexivity|].
  intros Hclaim.
  assert (∃ c0 c1 c2, l = [c0; c1; c2]
            ∧ Linker.resolveOverlaps l = [c0]
            ∧ (from c0, to c0) = (0, 3)%Z
            ∧ (from c1, to c1, from c2, to c2) = (2, 5, 2, 7)%Z)
    as (c0 & c1 & c2 & Hl & Hr & Hv0 & Hv).
  { eexists _, _, _. split; [vm_compute; reflexivity|].
    split; [vm_compute; reflexivity|]. split; vm_compute; reflexivity. }
  unfold longestMatchKept in Hclaim. rewrite Hr, Hl in Hclaim.
  clear Hl Hr. clearbody l.
  injection Hv0 as Hf0 Ht0. injection Hv as Hf1 Ht1 Hf2 Ht2.
  destruct (Hclaim c1 c2) as [(c & Hc & Hcf & Hct) _].
  - right. left.
  - right. right. left.
  - lia.
  - lia.
  - apply list_elem_of_singleton in Hc as ->. lia.
Qed.

(** ** Exclusion *)
Section exclusion.
Context {W : Type}.
Implicit Types (a : Addition W) (tree : IntervalTree.t).

(** Intervals that share a point of the half-open ranges are found by
    [search]. *)
Lemma search_finds tree iv (f t : Z) :
  iv ∈ tree →
  (∃ x, f ≤ x < t ∧ IntervalTree.low iv ≤ x < IntervalTree.high iv)%Z →
  iv ∈ IntervalTree.search tree (f, t).
Proof.
  intros Hin (x & Hx & Hiv). unfold IntervalTree.search.
  apply list_elem_of_filter. split; [|done].
  unfold IntervalTree.not_intersect, IntervalTree.ofPair. simpl.
  apply orb_false_iff. split; apply bool_decide_eq_false; lia.
Qed.

Lemma linker_emitted_spec settings st viewIsActive tree a :
  Linker.emitted settings st viewIsActive tree a = true ↔
  IntervalTree.search tree (from a, to a) = []
  ∧ ¬ (from a ≤ selectionMainFrom st ≤ to a)%Z
  ∧ (viewIsActive && Linker.excludeLinksInCurrentLine settings = false
     ∨ ¬ ((lineAt st (selectionMainFrom st)).1 ≤ from a
          ∧ to a ≤ (lineAt st (selectionMainFrom st)).2)%Z).
Proof.
  unfold Linker.emitted.
  rewrite !andb_true_iff, orb_true_iff, !negb_true_iff.
  rewrite bool_decide_eq_true, length_zero_iff_nil.
  destruct (viewIsActive && Linker.excludeLinksInCurrentLine settings);
    repeat case_bool_decide; simpl; intuition (try done; try lia).
Qed.

Lemma glossary_emitted_spec st tree a :
  Glossary.emitted st tree a = true ↔
  IntervalTree.search tree (from a, to a) = []
  ∧ ¬ (from a ≤ selectionMainFrom st ≤ to a)%Z.
Proof.
  unfold Glossary.emitted.
  rewrite !andb_true_iff, !negb_true_iff.
  rewrite bool_decide_eq_true, length_zero_iff_nil.
  repeat case_bool_decide; simpl; intuition (try done; try lia).
Qed.

Lemma linker_rangeDecorations_elem settings st viewIsActive winFrom winTo
    (l : list (Addition W)) d :
  d ∈ Linker.rangeDecorations settings st viewIsActive winFrom winTo l ↔
  ∃ a, d = Linker.decorationOf a
       ∧ a ∈ Linker.resolveOverlaps l
       ∧ Linker.emitted settings st viewIsActive
           (Linker.excludedIntervalTree settings st winFrom winTo) a = true.
Proof.
  unfold Linker.rangeDecorations. rewrite list_elem_of_fmap.
  split; intros (a & ? & Ha); exists a.
  - apply list_elem_of_filter in Ha as [? ?]. done.
  - split; [done|]. apply list_elem_of_filter. tauto.
Qed.

Lemma glossary_rangeDecorations_elem st winFrom winTo
    (l : list (Addition W)) d :
  d ∈ Glossary.rangeDecorations st winFrom winTo l ↔
  ∃ a, d = Glossary.decorationOf a
       ∧ a ∈ Glossary.resolveOverlaps l
       ∧ Glossary.emitted st
           (Glossary.excludedIntervalTree st winFrom winTo) a = true.
Proof.
  unfold Glossary.rangeDecorations. rewrite list_elem_of_fmap.
  split; intros (a & ? & Ha); exists a.
  - apply list_elem_of_filter in Ha as [? ?]. done.
  - split; [done|]. apply list_elem_of_filter. tauto.
Qed.
End exclusion.

(** C4: a candidate that survived overlap resolution and whose range
    [from, to) shares a point with an interval of the structural exclusion
    index, built from the syntax nodes for the excluded types in effect, is
    never added to the builder: no emitted range has its span. *)
Theorem structurally_excluded_never_emitted {W} settings st viewIsActive
    winFrom winTo (additions : list (Addition W)) (a : Addition W)
    (iv : IntervalTree.Interval) :
  a ∈ Linker.resolveOverlaps additions →
  iv ∈ Linker.excludedIntervalTree settings st winFrom winTo →
  (∃ x, from a ≤ x < to a
        ∧ IntervalTree.low iv ≤ x < IntervalTree.high iv)%Z →
  ∀ d, d ∈ Linker.rangeDecorations settings st viewIsActive winFrom winTo
             additions →
       ¬ (decoFrom d = from a ∧ decoTo d = to a).
Proof.
  intros _ Hiv Hx d Hd [Hf Ht].
  apply linker_rangeDecorations_elem in Hd as (a' & -> & _ & Hemit).
  apply linker_emitted_spec in Hemit as (Hsearch & _).
  simpl in Hf, Ht.
  assert (iv ∈ IntervalTree.search
                 (Linker.excludedIntervalTree settings st winFrom winTo)
                 (from a', to a')) as Hin.
  { apply search_finds; [done|]. by rewrite Hf, Ht. }
  rewrite Hsearch in Hin. by apply elem_of_nil in Hin.
Qed.

(** ["see Note here"] with the note ["Note"] and a code-block node over
    the match. *)
Lemma structurally_excluded_never_emitted_witness :
  let st := nodesState "see Note here" 100
              [mkSyntaxNode (str "hmd-codeblock") 4 8] in
  let l := candidates wholeWords "see Note here" ["Note"] in
  spans l = [(4, 8)%Z]
  ∧ Linker.excludedIntervalTree wholeWords st 0 13 = [IntervalTree.mkInterval 4 8]
  ∧ ∀ d, d ∈ Linker.rangeDecorations wholeWords st true 0 13 l →
         ¬ (decoFrom d = 4%Z ∧ decoTo d = 8%Z).
Proof.
  intros st l. split; [vm_compute; reflexivity|].
  split; [vm_compute; reflexivity|].
  assert (∃ a, Linker.resolveOverlaps l = [a] ∧ (from a, to a) = (4, 8)%Z)
    as (a & Hr & Hv).
  { eexists. split; vm_compute; reflexivity. }
  injection Hv as Hf Ht. rewrite <- Hf, <- Ht.
  apply (structurally_excluded_never_emitted wholeWords st true 0 13 l a
           (IntervalTree.mkInterval 4 8)).
  - rewrite Hr. left.
  - vm_compute. left.
  - exists 4%Z. simpl. lia.
Defined.



(** ** The candidate scan *)

Lemma scanSteps_steps text fuel i tr :
  scanSteps text fuel i = Done tr → steps text i tr.
Proof.
  revert i tr. induction fuel as [|fuel IH]; intros i tr; simpl.
  - case_bool_decide; [done|]. intros ?; simplify_eq. constructor. lia.
  - case_bool_decide as Hi.
    + destruct (scanChar text i) as [char|] eqn:Hc; [|done].
      destruct (scanSteps text fuel (i + length char)) as [tr'| |] eqn:Hrec;
        simpl; [|done..].
      intros ?; simplify_eq. constructor; [done..|]. by apply IH.
    + intros ?; simplify_eq. constructor. lia.
Qed.

Lemma scanLoop_Done {S} (body : nat → jsstring → S → S) text st s :
  scanLoop body text (scanFuel text) 0 st = Done s →
  ∃ tr, steps text 0 tr ∧ s = foldl (λ s ic, body ic.1 ic.2 s) st tr.
Proof.
  rewrite scanLoop_steps.
  destruct (scanSteps text (scanFuel text) 0) as [tr| |] eqn:Hrun; simpl;
    [|done..].
  intros ?; simplify_eq. exists tr. split; [|done].
  by eapply scanSteps_steps.
Qed.

Lemma foldl_invariant {S X} (P : S → Prop) (Q : X → Prop)
    (f : S → X → S) (st : S) (l : list X) :
  P st → Forall Q l → (∀ s x, P s → Q x → P (f s x)) → P (foldl f st l).
Proof.
  intros Hst Hl Hf. revert st Hst.
  induction Hl as [|x l Hx Hl IH]; intros st Hst; simpl; [done|].
  apply IH. by apply Hf.
Qed.

Section linker_scan.
Context {C : Type} `{PrefixTreeLaws C}.

(** The additions are numbered in the order in which they are pushed. *)
Lemma linker_scan_ids settings mappedFile text winFrom (c : C) s :
  Linker.scan settings mappedFile text winFrom c = Done s →
  id <$> Linker.additions s = seq 0 (length (Linker.additions s)).
Proof.
  intros Hrun. apply scanLoop_Done in Hrun as (tr & _ & ->).
  apply (foldl_invariant
           (λ s, Linker.nextId s = length (Linker.additions s)
                 ∧ id <$> Linker.additions s
                   = seq 0 (length (Linker.additions s)))
           (λ _, True)); [done|by apply Forall_true|].
  intros s [i char] [Hn Hids] _. unfold Linker.scanBody. simpl.
  destruct (negb _ || _); [|done].
  destruct (getCurrentMatchNodes _ _ _) as [|node nodes]; [done|]. simpl.
  rewrite length_app, fmap_app, Hids, Hn. simpl.
  split; [lia|]. by rewrite Nat.add_1_r, seq_S.
Qed.

Lemma linker_scan_additions settings mappedFile text winFrom (c : C) s :
  Linker.scan settings mappedFile text winFrom c = Done s →
  Forall (λ a, ∃ (i : nat) char,
            i ≤ length text
            ∧ scanChar text i = Some char
            ∧ to a = (winFrom + Z.of_nat i)%Z
            ∧ Linker.widgetFrom (widget a) = from a
            ∧ Linker.widgetTo (widget a) = to a
            ∧ Linker.isSubWord (widget a) = negb (checkWordBoundary char)
            ∧ (Linker.matchOnlyWholeWords settings = true →
               checkWordBoundary char = true))
         (Linker.additions s).
Proof.
  intros Hrun. apply scanLoop_Done in Hrun as (tr & Hst & ->).
  apply (foldl_invariant
           (λ s, Forall _ (Linker.additions s))
           (λ ic, ic.1 ≤ length text ∧ scanChar text ic.1 = Some ic.2)).
  - constructor.
  - apply Forall_forall. intros [i char] Hin.
    destruct (steps_bounds _ _ _ Hst i char Hin) as [[_ ?] ?]. done.
  - intros s [i char] Hs [Hi Hc]. unfold Linker.scanBody. simpl in *.
    destruct (negb _ || checkWordBoundary char) eqn:Hgate; [|done].
    destruct (getCurrentMatchNodes _ _ _) as [|node nodes] eqn:Hnodes;
      [done|]. simpl.
    apply Forall_app. split; [done|]. constructor; [|constructor].
    exists i, char. simpl.
    assert (end_ node = Z.of_nat i) as ->.
    { eapply match_end. rewrite Hnodes. left. }
    repeat split; [done..|].
    intros Hww. rewrite Hww in Hgate. done.
Qed.
End linker_scan.

(** C6 (amended): the [isSubWord] flag of a candidate is the negation of
    the word-boundary test of the character read in the iteration that
    pushed it.  A match reported at an offset ends there, so that is the
    character at the right edge of the span, the one that follows the match
    (the synthetic newline at the end of the window): [isSubWord] is true
    exactly when that character is not a word boundary, and it is never
    true when only whole words are matched. *)
Theorem isSubWord_iff_right_edge_not_boundary {C : Type} `{PrefixTreeLaws C}
    settings mappedFile text winFrom (c : C) s a :
  Linker.scan settings mappedFile text winFrom c = Done s →
  a ∈ Linker.additions s →
  ∃ char,
    (0 ≤ to a - winFrom ≤ Z.of_nat (length text))%Z
    ∧ scanChar text (Z.to_nat (to a - winFrom)) = Some char
    ∧ (Linker.isSubWord (widget a) = true ↔ checkWordBoundary char = false)
    ∧ (Linker.matchOnlyWholeWords settings = true →
       Linker.isSubWord (widget a) = false).
Proof.
  intros Hrun Ha.
  pose proof (linker_scan_additions _ _ _ _ _ _ Hrun) as Hall.
  rewrite Forall_forall in Hall.
  destruct (Hall a Ha) as (i & char & Hi & Hc & Hto & _ & _ & Hsub & Hww).
  exists char. rewrite Hto.
  replace (winFrom + Z.of_nat i - winFrom)%Z with (Z.of_nat i) by lia.
  rewrite Nat2Z.id. split; [lia|]. split; [done|]. split.
  - rewrite Hsub. apply negb_true_iff.
  - intros Hw. rewrite Hsub, (Hww Hw). done.
Qed.

(** The cache built from the specification reports matches that end at
    the queried offset. *)
#[global] Instance LinkerCache_laws : PrefixTreeLaws LinkerCache.Cache.
Proof.
  constructor. intros c i excluded node Hin. simpl in Hin.
  unfold LinkerCache.getCurrentMatchNodes in Hin.
  apply list_elem_of_omap in Hin as (m & Hm & Hnode).
  assert (end_ node = end_ m) as ->.
  { destruct (filter _ (files m)); [done|]. by simplify_eq. }
  unfold LinkerCache.query in Hm.
  apply list_elem_of_omap in Hm as (cur & _ & Hcur).
  destruct (LinkerCache.terminal (LinkerCache.node cur)); [done|].
  by simplify_eq.
Qed.

(** ["a Notebook"] with the note ["Note"], matching inside words: the
    match of ["Note"] ends before ["b"], which is no boundary. *)
Lemma isSubWord_iff_right_edge_not_boundary_witness :
  ∃ s a char,
    Linker.scan subWords None (str "a Notebook") 0
      (LinkerCache.ofVault [note "Note"]) = Done s
    ∧ Linker.additions s = [a]
    ∧ (from a, to a) = (2, 6)%Z
    ∧ scanChar (str "a Notebook") 6 = Some char
    ∧ char = str "b"
    ∧ (Linker.isSubWord (widget a) = true
       ↔ LinkerCache.checkWordBoundary char = false).
Proof.
  assert (∃ s a, Linker.scan subWords None (str "a Notebook") 0
                   (LinkerCache.ofVault [note "Note"]) = Done s
                 ∧ Linker.additions s = [a]
                 ∧ (from a, to a) = (2, 6)%Z) as (s & a & Hrun & Hs & Hv).
  { eexists _, _. split; [vm_compute; reflexivity|].
    split; vm_compute; reflexivity. }
  assert (a ∈ Linker.additions s) as Ha by (rewrite Hs; left).
  destruct (isSubWord_iff_right_edge_not_boundary subWords None
              (str "a Notebook") 0 (LinkerCache.ofVault [note "Note"]) s a
              Hrun Ha) as (char & _ & Hc & Hiff & _).
  exists s, a, char. split; [exact Hrun|]. split; [exact Hs|].
  split; [exact Hv|].
  injection Hv as Hf Ht. rewrite Ht in Hc. change (Z.to_nat (6 - 0)) with 6 in Hc.
  split; [exact Hc|]. split; [|exact Hiff].
  vm_compute in Hc. by injection Hc as <-.
Defined.

(** C6, as stated, fails: in ["xNote "] with the note ["Note"], matching
    inside words, the match of ["Note"] starts in the middle of the word
    (neither ["x"] before it nor its own first character is a boundary)
    and its [isSubWord] flag is false, because the character after it is a
    space. *)
Lemma sub_word_iff_left_edge_counterexample :
  let l := candidates subWords "xNote " ["Note"] in
  spans l = [(1, 5)%Z]
  ∧ Linker.isSubWord ∘ widget <$> l = [false]
  ∧ LinkerCache.checkWordBoundary (str "x") = false
  ∧ LinkerCache.checkWordBoundary (str "N") = false
  ∧ ¬ subWordIffLeftEdge LinkerCache.checkWordBoundary (str "xNote ") 0 l.
Proof.
  intros l. split; [vm_compute; reflexivity|].
  split; [vm_compute; reflexivity|].
  split; [vm_compute; reflexivity|].
  split; [vm_compute; reflexivity|].
  intros Hclaim.
  assert (∃ a, l = [a] ∧ (from a, Linker.isSubWord (widget a)) = (1%Z, false))
    as (a & Hl & Hv).
  { eexists. split; vm_compute; reflexivity. }
  unfold subWordIffLeftEdge in Hclaim. rewrite Hl in Hclaim.
  clear Hl. clearbody l. injection Hv as Hf Hsub.
  assert (Linker.isSubWord (widget a) = true) as Htrue; [|congruence].
  apply Hclaim; [left|].
  intros [Hstart|(u & Hu & Hb)]; [lia|].
  rewrite Hf in Hu. vm_compute in Hu. injection Hu as <-.
  vm_compute in Hb. discriminate.
Qed.

(** ** The cache *)

(** C8: after a call of [updateCache], a second call on the same vault
    returns the same cache (automaton, dictionary and flag), unless the
    second call is forced and the first was not; every scan of a window
    then finds the same candidates. *)
Theorem updateCache_idempotent (app : App) (force1 force2 : bool)
    (c : LinkerCache.Cache) :
  (force2 = true → force1 = true) →
  LinkerCache.updateCache app force2 (LinkerCache.updateCache app force1 c)
  = LinkerCache.updateCache app force1 c
  ∧ ∀ settings mappedFile text winFrom,
      Linker.scan settings mappedFile text winFrom
        (reset (updateCache app force2 (updateCache app force1 c)))
      = Linker.scan settings mappedFile text winFrom
          (reset (updateCache app force1 c)).
Proof.
  intros Hforce.
  assert (LinkerCache.updateCache app force2
            (LinkerCache.updateCache app force1 c)
          = LinkerCache.updateCache app force1 c) as Hsame.
  { unfold LinkerCache.updateCache.
    destruct (LinkerCache.pendingUpdate c) eqn:Hp, force1, force2; simpl;
      rewrite ?Hp; simpl; try done.
    by specialize (Hforce eq_refl). }
  split; [done|]. intros. simpl. by rewrite Hsame.
Qed.

(** Two unforced updates of a cache with a pending notification, on a
    vault with the note ["Note"]. *)
Lemma updateCache_idempotent_witness :
  let app := mkApp (λ _, None) None None [note "Note"] in
  LinkerCache.updateCache app false
    (LinkerCache.updateCache app false LinkerCache.emptyCache)
  = LinkerCache.updateCache app false LinkerCache.emptyCache
  ∧ LinkerCache.updateCache app false LinkerCache.emptyCache
    = LinkerCache.ofVault [note "Note"].
Proof.
  intros app. split; [|reflexivity].
  apply (updateCache_idempotent app false false LinkerCache.emptyCache).
  intros Hf. discriminate Hf.
Defined.

(** ** The view-update handler *)

(** C10 (amended): when the call is not forced, the cursor is where it was
    last recorded, the document and the viewport did not change and the
    active file is the recorded one, [update] returns without rebuilding:
    the decorations, the cache, the recorded cursor and the recorded file
    stay as they are.  In the linker the stored view update becomes the
    current one, and the map from DOM elements to files records the active
    view's file for the view's element exactly when one of the two
    exclusion settings is on and the element lies within three levels
    below the active view's content element; otherwise the map stays as it
    is.  In the glossary nothing changes. *)
Theorem update_frame {C : Type} `{PrefixTreeOps C} (app : App)
    settings (this : Linker.AutoLinkerPlugin C)
    (gthis : Glossary.AutoLinkerPlugin C) (upd : ViewUpdate) :
  docChanged upd = false →
  viewportChanged upd = false →
  (Linker.lastCursorPos this = selectionMainFrom (state (view upd)) →
   path <$> getActiveFile app = Some (Linker.lastActiveFile this) →
   Linker.update app settings this upd false
   = Done (Linker.mkPlugin (Linker.decorations this)
             (Linker.linkerCache this) (Linker.lastCursorPos this)
             (Linker.lastActiveFile this) (Some upd)
             (if (Linker.excludeLinksInCurrentLine settings
                  || Linker.excludeLinksToOwnNote settings)
                 && match getActiveViewOfType app with
                    | Some activeView =>
                        Linker.isDescendant app (contentEl activeView)
                          (dom (view upd)) 3
                    | None => false
                    end
              then <[dom (view upd) := getActiveViewOfType app ≫= file]>
                     (Linker.viewUpdateDomToFileMap this)
              else Linker.viewUpdateDomToFileMap this)))
  ∧ (Glossary.lastCursorPos gthis = selectionMainFrom (state (view upd)) →
     path <$> getActiveFile app = Some (Glossary.lastActiveFile gthis) →
     Glossary.update app gthis upd = Done gthis).
Proof.
  intros Hdoc Hview. split.
  - intros Hcursor Hfile. unfold Linker.update.
    rewrite Hdoc, Hview, Hfile.
    rewrite !bool_decide_eq_true_2 by done. simpl.
    destruct (Linker.excludeLinksInCurrentLine settings
              || Linker.excludeLinksToOwnNote settings) eqn:Hset; simpl;
      [|done].
    destruct (getActiveViewOfType app) as [activeView|] eqn:Hactive; simpl;
      [|done].
    by destruct (Linker.isDescendant app (contentEl activeView)
                   (dom (view upd)) 3).
  - intros Hcursor Hfile. unfold Glossary.update.
    rewrite Hdoc, Hview, Hfile.
    rewrite !bool_decide_eq_true_2 by done. done.
Qed.

(** An unforced update of [homePlugin] with nothing changed: with both
    exclusion settings off the map stays empty; with the exclusion of
    links to the own note on, the editor element 2, a child of the active
    view's content element, is mapped to the active view's file. *)
Lemma update_frame_witness :
  Linker.update homeApp wholeWords homePlugin homeUpdate false
  = Done (Linker.mkPlugin [] (LinkerCache.ofVault (vault homeApp)) 0
            (path homeFile) (Some homeUpdate) ∅)
  ∧ Linker.update homeApp excludeOwnNote homePlugin homeUpdate false
    = Done (Linker.mkPlugin [] (LinkerCache.ofVault (vault homeApp)) 0
              (path homeFile) (Some homeUpdate) {[2 := Some homeFile]}).
Proof.
  split.
  - exact (proj1 (update_frame homeApp wholeWords homePlugin
                    (Glossary.mkPlugin [] (LinkerCache.ofVault []) 0 [])
                    homeUpdate eq_refl eq_refl) eq_refl eq_refl).
  - exact (proj1 (update_frame homeApp excludeOwnNote homePlugin
                    (Glossary.mkPlugin [] (LinkerCache.ofVault []) 0 [])
                    homeUpdate eq_refl eq_refl) eq_refl eq_refl).
Defined.

(** C10, as stated, fails: with the exclusion of links to the own note
    switched on and the editor element right below the active view's
    content element, an unforced update with nothing changed records the
    active file for the editor element in the map from DOM elements to
    files. *)
Lemma only_last_view_update_changes_counterexample :
  ∃ this',
    Linker.update homeApp excludeOwnNote homePlugin homeUpdate false
    = Done this'
    ∧ Linker.lastCursorPos homePlugin
      = selectionMainFrom (state (view homeUpdate))
    ∧ docChanged homeUpdate = false
    ∧ viewportChanged homeUpdate = false
    ∧ path <$> getActiveFile homeApp = Some (Linker.lastActiveFile homePlugin)
    ∧ Linker.decorations this' = Linker.decorations homePlugin
    ∧ Linker.viewUpdateDomToFileMap this' !! 2 = Some (Some homeFile)
    ∧ ¬ onlyLastViewUpdateChanges homePlugin this'.
Proof.
  eexists. split; [vm_compute; reflexivity|].
  repeat (split; [reflexivity|]).
  intros (_ & _ & _ & _ & Hmap).
  apply (f_equal (λ m : gmap nat (option TFile), m !! 2)) in Hmap.
  vm_compute in Hmap. discriminate Hmap.
Qed.

(** ** Further properties of the sort and the resolver *)

(** X1: [additions.sort] rearranges the candidates, without adding or
    losing any, into ascending order of [from] and, among equal [from],
    descending order of [to]. *)
Theorem additions_sorted_by_from_then_longest {W} (l : list (Addition W)) :
  arraySort Linker.compareAdditions l ≡ₚ l
  ∧ ∀ i j a b, i < j →
      arraySort Linker.compareAdditions l !! i = Some a →
      arraySort Linker.compareAdditions l !! j = Some b →
      (from a < from b ∨ (from a = from b ∧ to b ≤ to a))%Z.
Proof.
  split; [apply arraySort_perm|].
  intros i j a b Hij Hi Hj. apply before_spec.
  by apply (sorted_lookup_before l i j).
Qed.

Lemma arraySort_sorted_id {A} (compare : A → A → Z) (l : list A) :
  StronglySorted (λ x y, (compare x y ≤ 0)%Z) l → arraySort compare l = l.
Proof.
  induction 1 as [|x l Hl IH Hx]; simpl; [done|].
  rewrite IH. destruct l as [|y l']; simpl; [done|].
  rewrite bool_decide_eq_true_2; [done|].
  by apply Forall_cons in Hx as [? _].
Qed.

Lemma StronglySorted_filter {A} (R : relation A) (P : A → Prop)
    `{∀ x, Decision (P x)} l :
  StronglySorted R l → StronglySorted R (filter P l).
Proof.
  intros Hl. apply StronglySorted_filter_lookup.
  intros i j a b Hij Hi Hj _ _. by apply (StronglySorted_lookup R l i j).
Qed.

Lemma filter_all {A} (P : A → Prop) `{∀ x, Decision (P x)} (l : list A) :
  (∀ x, P x) → filter P l = l.
Proof.
  intros HP. induction l as [|x l IH]; [done|].
  by rewrite filter_cons_True, IH.
Qed.

Lemma markAll_disjoint_empty {W} (l : list (Addition W)) :
  StronglySorted (λ a b, (from a ≤ from b)%Z ∧ (to a ≤ from b)%Z) l →
  Linker.markAll l ∅ = ∅.
Proof.
  intros Hl. apply map_eq. intros k. rewrite lookup_empty.
  apply eq_None_not_Some. rewrite markAll_lookup.
  - intros [Hemp|(i & j & a & b & Hij & Hi & Hj & _ & Hlt)].
    + rewrite lookup_empty in Hemp. by destruct Hemp.
    + destruct (StronglySorted_lookup _ l i j a b Hl Hij Hi Hj). lia.
  - eapply StronglySorted_weaken; [|exact Hl]. by intros a b [? _].
Qed.

(** X2: resolving overlaps a second time changes nothing: the resolver's
    output is already sorted and free of overlaps. *)
Theorem resolveOverlaps_idempotent {W} (l : list (Addition W)) :
  Linker.resolveOverlaps (Linker.resolveOverlaps l) = Linker.resolveOverlaps l.
Proof.
  assert (arraySort Linker.compareAdditions (Linker.resolveOverlaps l)
          = Linker.resolveOverlaps l) as Hsort.
  { apply arraySort_sorted_id. unfold Linker.resolveOverlaps.
    apply StronglySorted_filter, sorted_before. }
  unfold Linker.resolveOverlaps at 1. rewrite Hsort.
  rewrite markAll_disjoint_empty by apply resolveOverlaps_disjoint.
  apply filter_all. intros a. apply lookup_empty.
Qed.

(** X3: the resolver only drops candidates: its output is a subsequence of
    the sorted candidates, so every kept candidate is one of the input and
    none is kept more often than it was found. *)
Theorem resolveOverlaps_sublist {W} (l : list (Addition W)) :
  sublist (Linker.resolveOverlaps l) (arraySort Linker.compareAdditions l)
  ∧ (∀ a, a ∈ Linker.resolveOverlaps l → a ∈ l)
  ∧ length (Linker.resolveOverlaps l) ≤ length l.
Proof.
  assert (sublist (Linker.resolveOverlaps l)
            (arraySort Linker.compareAdditions l)) as Hsub.
  { unfold Linker.resolveOverlaps. apply sublist_filter. }
  split; [done|]. split.
  - intros a Ha. rewrite <- (arraySort_perm Linker.compareAdditions l).
    by eapply elem_of_sublist.
  - rewrite <- (Permutation_length (arraySort_perm Linker.compareAdditions l)).
    by apply sublist_length.
Qed.

(** ** Further properties of the candidate scan *)

Lemma seq_NoDup (n : nat) : NoDup (seq 0 n).
Proof. apply NoDup_ListNoDup, List.seq_NoDup. Qed.

Section scans.
Context {C : Type} `{PrefixTreeOps C}.

Lemma glossary_scan_ids text winFrom (c : C) s :
  Glossary.scan text winFrom c = Done s →
  id <$> Glossary.additions s = seq 0 (length (Glossary.additions s)).
Proof.
  intros Hrun. apply scanLoop_Done in Hrun as (tr & _ & ->).
  apply (foldl_invariant
           (λ s, Glossary.nextId s = length (Glossary.additions s)
                 ∧ id <$> Glossary.additions s
                   = seq 0 (length (Glossary.additions s)))
           (λ _, True)); [done|by apply Forall_true|].
  intros s [i char] [Hn Hids] _. unfold Glossary.scanBody. simpl.
  destruct (checkWordBoundary char); [|done].
  destruct (getCurrentMatchNodes _ _ _) as [|node nodes]; [done|]. simpl.
  rewrite length_app, fmap_app, Hids, Hn. simpl.
  split; [lia|]. by rewrite Nat.add_1_r, seq_S.
Qed.

(** What the linker's scan stores in a candidate, read off the match
    node it was built from. *)
Lemma linker_scan_nodes settings mappedFile text winFrom (c : C) s :
  Linker.scan settings mappedFile text winFrom c = Done s →
  Forall (λ a, ∃ node,
            from a = (winFrom + start node)%Z
            ∧ to a = (winFrom + end_ node)%Z
            ∧ Linker.text (widget a) = slice text (start node) (end_ node)
            ∧ Linker.linkFile (widget a) = head (files node)
            ∧ Linker.widgetFrom (widget a) = from a
            ∧ Linker.widgetTo (widget a) = to a)
         (Linker.additions s).
Proof.
  intros Hrun. apply scanLoop_Done in Hrun as (tr & _ & ->).
  apply (foldl_invariant (λ s, Forall _ (Linker.additions s)) (λ _, True));
    [constructor|by apply Forall_true|].
  intros s [i char] Hs _. unfold Linker.scanBody. simpl.
  destruct (negb _ || _); [|done].
  destruct (getCurrentMatchNodes _ _ _) as [|node nodes]; [done|]. simpl.
  apply Forall_app. split; [done|]. constructor; [|constructor].
  by exists node.
Qed.

Lemma glossary_scan_nodes text winFrom (c : C) s :
  Glossary.scan text winFrom c = Done s →
  Forall (λ a, ∃ node,
            from a = (winFrom + start node)%Z
            ∧ to a = (winFrom + end_ node)%Z
            ∧ Glossary.text (widget a) = slice text (start node) (end_ node)
            ∧ Glossary.linkFile (widget a) = head (files node))
         (Glossary.additions s).
Proof.
  intros Hrun. apply scanLoop_Done in Hrun as (tr & _ & ->).
  apply (foldl_invariant (λ s, Forall _ (Glossary.additions s)) (λ _, True));
    [constructor|by apply Forall_true|].
  intros s [i char] Hs _. unfold Glossary.scanBody. simpl.
  destruct (checkWordBoundary char); [|done].
  destruct (getCurrentMatchNodes _ _ _) as [|node nodes]; [done|]. simpl.
  apply Forall_app. split; [done|]. constructor; [|constructor].
  by exists node.
Qed.
End scans.

(** X4: the candidates of a scan carry the ids 0, 1, 2, ... in the order
    in which they were found, in the linker and in the glossary; the ids
    that the overlap resolver stores in its map are therefore distinct. *)
Theorem scan_ids_consecutive {C : Type} `{PrefixTreeOps C}
    settings mappedFile text winFrom (c : C) :
  (∀ s, Linker.scan settings mappedFile text winFrom c = Done s →
        id <$> Linker.additions s = seq 0 (length (Linker.additions s))
        ∧ NoDup (id <$> Linker.additions s))
  ∧ (∀ s, Glossary.scan text winFrom c = Done s →
          id <$> Glossary.additions s = seq 0 (length (Glossary.additions s))
          ∧ NoDup (id <$> Glossary.additions s)).
Proof.
  split; intros s Hrun.
  - pose proof (linker_scan_ids _ _ _ _ _ _ Hrun) as Hids.
    split; [done|]. rewrite Hids. apply seq_NoDup.
  - pose proof (glossary_scan_ids _ _ _ _ Hrun) as Hids.
    split; [done|]. rewrite Hids. apply seq_NoDup.
Qed.

(** ["a b c d e"] with the notes ["a b"], ["b c d"] and ["d e"]: three
    candidates with the ids 0, 1 and 2. *)
Lemma scan_ids_consecutive_witness :
  ∃ s, Linker.scan wholeWords None (str "a b c d e") 0
         (LinkerCache.ofVault (note <$> ["a b"; "b c d"; "d e"])) = Done s
       ∧ id <$> Linker.additions s = [0; 1; 2].
Proof.
  eexists. split; [vm_compute; reflexivity|].
  refine (eq_trans (proj1 (proj1 (scan_ids_consecutive wholeWords None
           (str "a b c d e") 0
           (LinkerCache.ofVault (note <$> ["a b"; "b c d"; "d e"]))) _ _)) _).
  - vm_compute. reflexivity.
  - reflexivity.
Defined.

(** X5: the text of a candidate's widget is the slice of the window that
    its span covers, and the widget of the linker records the span itself,
    whatever the cache reports. *)
Theorem widget_text_is_matched_slice {C : Type} `{PrefixTreeOps C}
    settings mappedFile text winFrom (c : C) :
  (∀ s a, Linker.scan settings mappedFile text winFrom c = Done s →
          a ∈ Linker.additions s →
          Linker.text (widget a)
            = slice text (from a - winFrom) (to a - winFrom)
          ∧ Linker.widgetFrom (widget a) = from a
          ∧ Linker.widgetTo (widget a) = to a)
  ∧ (∀ s a, Glossary.scan text winFrom c = Done s →
            a ∈ Glossary.additions s →
            Glossary.text (widget a)
              = slice text (from a - winFrom) (to a - winFrom)).
Proof.
  split; intros s a Hrun Ha.
  - pose proof (linker_scan_nodes _ _ _ _ _ _ Hrun) as Hall.
    rewrite Forall_forall in Hall.
    destruct (Hall a Ha) as (node & -> & -> & -> & _ & -> & ->).
    repeat split. f_equal; lia.
  - pose proof (glossary_scan_nodes _ _ _ _ Hrun) as Hall.
    rewrite Forall_forall in Hall.
    destruct (Hall a Ha) as (node & -> & -> & -> & _).
    f_equal; lia.
Qed.

(** ["see Note here"] scanned as a window that starts at offset 100 of
    the document. *)
Lemma widget_text_is_matched_slice_witness :
  ∃ s a, Linker.scan wholeWords None (str "see Note here") 100
           (LinkerCache.ofVault [note "Note"]) = Done s
         ∧ Linker.additions s = [a]
         ∧ (from a, to a) = (104, 108)%Z
         ∧ Linker.text (widget a) = str "Note".
Proof.
  assert (∃ s a, Linker.scan wholeWords None (str "see Note here") 100
                   (LinkerCache.ofVault [note "Note"]) = Done s
                 ∧ Linker.additions s = [a]
                 ∧ (from a, to a) = (104, 108)%Z) as (s & a & Hrun & Hs & Hv).
  { eexists _, _. split; [vm_compute; reflexivity|].
    split; vm_compute; reflexivity. }
  exists s, a. split; [exact Hrun|]. split; [exact Hs|]. split; [exact Hv|].
  assert (a ∈ Linker.additions s) as Ha by (rewrite Hs; left).
  destruct (proj1 (widget_text_is_matched_slice wholeWords None
                     (str "see Note here") 100
                     (LinkerCache.ofVault [note "Note"])) s a Hrun Ha)
    as (Htext & _ & _).
  injection Hv as Hf Ht. rewrite Hf, Ht in Htext. exact Htext.
Defined.

Lemma foldl_sorted_invariant {S} (P : list nat → S → Prop)
    (f : S → nat * jsstring → S) (st : S) (tr : list (nat * jsstring)) :
  P tr.*1 st →
  (∀ s i char rest, P (i :: rest) s → P rest (f s (i, char))) →
  P [] (foldl f st tr).
Proof.
  intros Hst Hf. revert st Hst.
  induction tr as [|[i char] tr IH]; intros st Hst; simpl; [done|].
  apply IH. by apply Hf.
Qed.

Lemma StronglySorted_snoc {A} (R : relation A) (l : list A) (x : A) :
  StronglySorted R l → Forall (λ y, R y x) l → StronglySorted R (l ++ [x]).
Proof.
  induction 1 as [|y l Hl IH Hy]; intros Hx; simpl.
  - repeat constructor.
  - apply Forall_cons in Hx as [Hyx Hx]. constructor; [by apply IH|].
    apply Forall_app. split; [done|]. by constructor.
Qed.

Section ends.
Context {C : Type} `{PrefixTreeLaws C}.

Lemma linker_scan_ends_increasing settings mappedFile text winFrom (c : C) s :
  Linker.scan settings mappedFile text winFrom c = Done s →
  StronglySorted Z.lt (to <$> Linker.additions s).
Proof.
  intros Hrun. apply scanLoop_Done in Hrun as (tr & Hst & ->).
  apply steps_sorted in Hst.
  pose (P := λ (rest : list nat) (s : Linker.ScanState C),
          StronglySorted lt rest
          ∧ StronglySorted Z.lt (to <$> Linker.additions s)
          ∧ Forall (λ a, Forall (λ i, (to a < winFrom + Z.of_nat i)%Z) rest)
                   (Linker.additions s)).
  enough (P [] (foldl (λ s ic, Linker.scanBody settings mappedFile text
                                 winFrom ic.1 ic.2 s)
                      (Linker.mkScanState c 0 []) tr)) as (_ & ? & _); [done|].
  apply (foldl_sorted_invariant P).
  - subst P. simpl. split; [done|]. split; constructor.
  - subst P. simpl. intros s i char rest (Hrest & Hsorted & Hbelow).
    apply StronglySorted_inv in Hrest as [Hrest Hi].
    assert (Forall (λ a, Forall (λ i, (to a < winFrom + Z.of_nat i)%Z) rest)
                   (Linker.additions s)) as Hbelow'.
    { eapply Forall_impl; [exact Hbelow|]. intros a Ha.
      by apply Forall_cons in Ha as [_ ?]. }
    unfold Linker.scanBody. simpl.
    destruct (negb _ || _); [|by split].
    destruct (getCurrentMatchNodes _ _ _) as [|node nodes] eqn:Hnodes;
      [by split|]. simpl.
    assert (end_ node = Z.of_nat i) as ->.
    { eapply match_end. rewrite Hnodes. left. }
    split; [done|]. split.
    + rewrite fmap_app. apply StronglySorted_snoc; [done|].
      apply Forall_fmap. eapply Forall_impl; [exact Hbelow|].
      intros a Ha. by apply Forall_cons in Ha as [? _].
    + apply Forall_app. split; [done|]. constructor; [|constructor].
      simpl. eapply Forall_impl; [exact Hi|]. intros j Hj. simpl in Hj. lia.
Qed.

Lemma glossary_scan_boundaries text winFrom (c : C) s :
  Glossary.scan text winFrom c = Done s →
  Forall (λ a, ∃ (i : nat) char,
            i ≤ length text
            ∧ scanChar text i = Some char
            ∧ to a = (winFrom + Z.of_nat i)%Z
            ∧ checkWordBoundary char = true)
         (Glossary.additions s).
Proof.
  intros Hrun. apply scanLoop_Done in Hrun as (tr & Hst & ->).
  apply (foldl_invariant
           (λ s, Forall _ (Glossary.additions s))
           (λ ic, ic.1 ≤ length text ∧ scanChar text ic.1 = Some ic.2)).
  - constructor.
  - apply Forall_forall. intros [i char] Hin.
    destruct (steps_bounds _ _ _ Hst i char Hin) as [[_ ?] ?]. done.
  - intros s [i char] Hs [Hi Hc]. unfold Glossary.scanBody. simpl in *.
    destruct (checkWordBoundary char) eqn:Hgate; [|done].
    destruct (getCurrentMatchNodes _ _ _) as [|node nodes] eqn:Hnodes;
      [done|]. simpl.
    apply Forall_app. split; [done|]. constructor; [|constructor].
    exists i, char. simpl.
    assert (end_ node = Z.of_nat i) as ->.
    { eapply match_end. rewrite Hnodes. left. }
    done.
Qed.
End ends.

(** X6: a scan finds at most one candidate per end position: each
    iteration pushes at most the first reported match, and a match
    reported at an offset ends there, so the ends of the candidates grow
    strictly in the order in which they are found and no two candidates
    have the same span. *)
Theorem scan_one_candidate_per_end {C : Type} `{PrefixTreeLaws C}
    settings mappedFile text winFrom (c : C) s :
  Linker.scan settings mappedFile text winFrom c = Done s →
  (∀ i j a b, i < j →
     Linker.additions s !! i = Some a → Linker.additions s !! j = Some b →
     (to a < to b)%Z)
  ∧ NoDup ((λ a, (from a, to a)) <$> Linker.additions s).
Proof.
  intros Hrun.
  pose proof (linker_scan_ends_increasing _ _ _ _ _ _ Hrun) as Hsorted.
  assert (∀ i j a b, i < j →
            Linker.additions s !! i = Some a →
            Linker.additions s !! j = Some b → (to a < to b)%Z) as Hlt.
  { intros i j a b Hij Hi Hj.
    apply (StronglySorted_lookup Z.lt _ i j (to a) (to b) Hsorted Hij).
    - by rewrite list_lookup_fmap, Hi.
    - by rewrite list_lookup_fmap, Hj. }
  split; [done|].
  apply NoDup_alt. intros i j [f t] Hi Hj.
  rewrite list_lookup_fmap in Hi, Hj.
  destruct (Linker.additions s !! i) as [a|] eqn:Ha; [|done].
  destruct (Linker.additions s !! j) as [b|] eqn:Hb; [|done].
  simpl in *. injection Hi as Hfa Hta. injection Hj as Hfb Htb.
  destruct (decide (i = j)) as [|Hne]; [done|].
  destruct (decide (i < j)) as [Hij|Hij].
  - pose proof (Hlt i j a b Hij Ha Hb). lia.
  - assert (j < i) as Hji by lia.
    pose proof (Hlt j i b a Hji Hb Ha). lia.
Qed.

(** ["a b c d"] with the notes ["a b"], ["b c"] and ["b c d"]. *)
Lemma scan_one_candidate_per_end_witness :
  ∃ s, Linker.scan wholeWords None (str "a b c d") 0
         (LinkerCache.ofVault (note <$> ["a b"; "b c"; "b c d"])) = Done s
       ∧ to <$> Linker.additions s = [3; 5; 7]%Z
       ∧ NoDup ((λ a, (from a, to a)) <$> Linker.additions s).
Proof.
  eexists. split; [vm_compute; reflexivity|].
  split; [vm_compute; reflexivity|].
  refine (proj2 (scan_one_candidate_per_end wholeWords None (str "a b c d") 0
                   (LinkerCache.ofVault (note <$> ["a b"; "b c"; "b c d"]))
                   _ _)).
  vm_compute. reflexivity.
Defined.

(** X7: the glossary matches whole words only: every candidate of its
    scan ends where the next character is a word boundary, the synthetic
    newline at the end of the window included. *)
Theorem glossary_candidates_end_at_boundary {C : Type} `{PrefixTreeLaws C}
    text winFrom (c : C) s a :
  Glossary.scan text winFrom c = Done s →
  a ∈ Glossary.additions s →
  ∃ char,
    (0 ≤ to a - winFrom ≤ Z.of_nat (length text))%Z
    ∧ scanChar text (Z.to_nat (to a - winFrom)) = Some char
    ∧ checkWordBoundary char = true.
Proof.
  intros Hrun Ha.
  pose proof (glossary_scan_boundaries _ _ _ _ Hrun) as Hall.
  rewrite Forall_forall in Hall.
  destruct (Hall a Ha) as (i & char & Hi & Hc & Hto & Hb).
  exists char. rewrite Hto.
  replace (winFrom + Z.of_nat i - winFrom)%Z with (Z.of_nat i) by lia.
  rewrite Nat2Z.id. split; [lia|done].
Qed.

(** ["Notes on a Note"] with the note ["Note"]: the first occurrence is
    followed by ["s"] and is no candidate; the second one ends the window. *)
Lemma glossary_candidates_end_at_boundary_witness :
  ∃ s a char,
    Glossary.scan (str "Notes on a Note") 0 (LinkerCache.ofVault [note "Note"])
    = Done s
    ∧ Glossary.additions s = [a]
    ∧ (from a, to a) = (11, 15)%Z
    ∧ scanChar (str "Notes on a Note") 15 = Some char
    ∧ LinkerCache.checkWordBoundary char = true.
Proof.
  assert (∃ s a, Glossary.scan (str "Notes on a Note") 0
                   (LinkerCache.ofVault [note "Note"]) = Done s
                 ∧ Glossary.additions s = [a]
                 ∧ (from a, to a) = (11, 15)%Z) as (s & a & Hrun & Hs & Hv).
  { eexists _, _. split; [vm_compute; reflexivity|].
    split; vm_compute; reflexivity. }
  assert (a ∈ Glossary.additions s) as Ha by (rewrite Hs; left).
  destruct (glossary_candidates_end_at_boundary (str "Notes on a Note") 0
              (LinkerCache.ofVault [note "Note"]) s a Hrun Ha)
    as (char & _ & Hc & Hb).
  exists s, a, char. split; [exact Hrun|]. split; [exact Hs|].
  split; [exact Hv|].
  injection Hv as Hf Ht. rewrite Ht in Hc.
  split; [exact Hc|exact Hb].
Defined.

(** ** Further properties of the exclusion filter *)

Lemma enter_elem (types : list jsstring) (tree : IntervalTree.t)
    (node : SyntaxNode) (iv : IntervalTree.Interval) :
  iv ∈ Linker.enter types tree node ↔
  iv ∈ tree
  ∨ (iv = IntervalTree.ofPair (nodeFrom node, nodeTo node)
     ∧ ∃ excludedType, excludedType ∈ types
                       ∧ contains (typeName node) excludedType = true).
Proof.
  unfold Linker.enter. revert tree.
  induction types as [|e types IH]; intros tree; simpl.
  - split; [by left|]. intros [?|(_ & e & He & _)]; [done|].
    by apply elem_of_nil in He.
  - rewrite IH. destruct (contains (typeName node) e) eqn:Hc.
    + unfold IntervalTree.insert. rewrite elem_of_app, list_elem_of_singleton.
      split.
      * intros [[?| ->]|(-> & e' & He' & Hc')].
        -- by left.
        -- right. split; [done|]. exists e. split; [left|done].
        -- right. split; [done|]. exists e'. split; [by right|done].
      * intros [?|(-> & e' & He' & Hc')]; [by left; left|].
        left. by right.
    + split.
      * intros [?|(-> & e' & He' & Hc')]; [by left|].
        right. split; [done|]. exists e'. split; [by right|done].
      * intros [?|(-> & e' & He' & Hc')]; [by left|].
        apply elem_of_cons in He' as [->|He']; [congruence|].
        right. split; [done|]. by exists e'.
Qed.

Lemma enter_all_elem (types : list jsstring) (nodes : list SyntaxNode)
    (tree : IntervalTree.t) (iv : IntervalTree.Interval) :
  iv ∈ foldl (Linker.enter types) tree nodes ↔
  iv ∈ tree
  ∨ ∃ node excludedType,
      node ∈ nodes ∧ excludedType ∈ types
      ∧ contains (typeName node) excludedType = true
      ∧ iv = IntervalTree.ofPair (nodeFrom node, nodeTo node).
Proof.
  revert tree. induction nodes as [|n nodes IH]; intros tree; simpl.
  - split; [by left|]. intros [?|(n & _ & Hn & _)]; [done|].
    by apply elem_of_nil in Hn.
  - rewrite IH, enter_elem. split.
    + intros [[?|(-> & e & He & Hc)]|(n' & e & Hn' & He & Hc & ->)].
      * by left.
      * right. exists n, e. split; [left|done].
      * right. exists n', e. split; [by right|done].
    + intros [?|(n' & e & Hn' & He & Hc & ->)]; [by left; left|].
      apply elem_of_cons in Hn' as [->|Hn'].
      * left. right. split; [done|]. by exists e.
      * right. by exists n', e.
Qed.

Lemma filter_nil_iff_helper {A} (P : A → Prop) `{∀ x, Decision (P x)}
    (l : list A) :
  (∀ x, x ∈ l → ¬ P x) → filter P l = [].
Proof.
  induction l as [|x l IH]; intros Hl; [done|].
  rewrite filter_cons_False by (apply Hl; left).
  apply IH. intros y Hy. apply Hl. by right.
Qed.

Lemma search_empty_iff (tree : IntervalTree.t) (key : Z * Z) :
  IntervalTree.search tree key = [] ↔
  ∀ iv, iv ∈ tree →
    (IntervalTree.high iv < Z.min key.1 key.2
     ∨ Z.max key.1 key.2 < IntervalTree.low iv)%Z.
Proof.
  unfold IntervalTree.search. split.
  - intros Hempty iv Hiv.
    destruct (IntervalTree.not_intersect iv (IntervalTree.ofPair key)) eqn:Hn.
    + unfold IntervalTree.not_intersect, IntervalTree.ofPair in Hn. simpl in Hn.
      apply orb_true_iff in Hn as [Hn|Hn]; apply bool_decide_eq_true in Hn; lia.
    + assert (iv ∈ filter
                (λ iv, IntervalTree.not_intersect iv (IntervalTree.ofPair key)
                       = false) tree) as Hin
        by (by apply list_elem_of_filter).
      rewrite Hempty in Hin. by apply elem_of_nil in Hin.
  - intros Hall. apply filter_nil_iff_helper. intros iv Hiv Hn.
    unfold IntervalTree.not_intersect, IntervalTree.ofPair in Hn. simpl in Hn.
    apply orb_false_iff in Hn as [Hn1 Hn2].
    apply bool_decide_eq_false in Hn1, Hn2.
    destruct (Hall iv Hiv); lia.
Qed.

(** X8: the structural exclusion index holds exactly the ranges of the
    iterated syntax nodes whose type name contains an excluded type
    string: the four fixed strings, and ["header-"] unless headers are
    included (linker); the three fixed strings (glossary). *)
Theorem excludedIntervalTree_elem settings st winFrom winTo
    (iv : IntervalTree.Interval) :
  (iv ∈ Linker.excludedIntervalTree settings st winFrom winTo ↔
   ∃ node excludedType,
     node ∈ syntaxTreeIterate st winFrom winTo
     ∧ (excludedType ∈ [str "codeblock"; str "code-block";
                        str "internal-link"; str "link"]
        ∨ (Linker.includeHeaders settings = false
           ∧ excludedType = str "header-"))
     ∧ contains (typeName node) excludedType = true
     ∧ iv = IntervalTree.ofPair (nodeFrom node, nodeTo node))
  ∧ (iv ∈ Glossary.excludedIntervalTree st winFrom winTo ↔
     ∃ node excludedType,
       node ∈ syntaxTreeIterate st winFrom winTo
       ∧ excludedType ∈ [str "codeblock"; str "code-block";
                          str "internal-link"]
       ∧ contains (typeName node) excludedType = true
       ∧ iv = IntervalTree.ofPair (nodeFrom node, nodeTo node)).
Proof.
  split.
  - unfold Linker.excludedIntervalTree. rewrite enter_all_elem.
    unfold IntervalTree.empty, Linker.excludedTypes. split.
    + intros [Hnil|(node & e & Hn & He & Hc & ->)];
        [by apply elem_of_nil in Hnil|].
      exists node, e. split; [done|]. split; [|done].
      apply elem_of_app in He as [He|He]; [by left|right].
      destruct (Linker.includeHeaders settings);
        [by apply elem_of_nil in He|].
      by apply list_elem_of_singleton in He.
    + intros (node & e & Hn & He & Hc & ->). right.
      exists node, e. split; [done|]. split; [|done].
      apply elem_of_app. destruct He as [He|[Hh ->]]; [by left|right].
      rewrite Hh. left.
  - unfold Glossary.excludedIntervalTree.
    change (Glossary.enter Glossary.excludedTypes)
      with (Linker.enter Glossary.excludedTypes).
    rewrite enter_all_elem.
    unfold IntervalTree.empty, Glossary.excludedTypes. split.
    + intros [Hnil|(node & e & Hn & He & Hc & ->)];
        [by apply elem_of_nil in Hnil|].
      by exists node, e.
    + intros (node & e & Hn & He & Hc & ->). right. by exists node, e.
Qed.

Lemma linker_decoration_apart {W} settings st viewIsActive winFrom winTo
    (l : list (Addition W)) d iv :
  d ∈ Linker.rangeDecorations settings st viewIsActive winFrom winTo l →
  iv ∈ Linker.excludedIntervalTree settings st winFrom winTo →
  (IntervalTree.high iv < Z.min (decoFrom d) (decoTo d)
   ∨ Z.max (decoFrom d) (decoTo d) < IntervalTree.low iv)%Z.
Proof.
  intros Hd Hiv.
  apply linker_rangeDecorations_elem in Hd as (a & -> & _ & Hemit).
  apply linker_emitted_spec in Hemit as (Hsearch & _).
  by apply (proj1 (search_empty_iff _ _) Hsearch iv).
Qed.

(** X9: every emitted range lies strictly apart from every interval of
    the exclusion index: the index compares closed intervals, so a
    candidate that merely touches an excluded node at one of its ends is
    not emitted either. *)
Theorem emitted_strictly_apart_from_excluded {W} settings st viewIsActive
    winFrom winTo (l : list (Addition W)) d node excludedType :
  d ∈ Linker.rangeDecorations settings st viewIsActive winFrom winTo l →
  node ∈ syntaxTreeIterate st winFrom winTo →
  excludedType ∈ Linker.excludedTypes settings →
  contains (typeName node) excludedType = true →
  (nodeFrom node ≤ nodeTo node)%Z → (decoFrom d ≤ decoTo d)%Z →
  (nodeTo node < decoFrom d ∨ decoTo d < nodeFrom node)%Z.
Proof.
  intros Hd Hnode Htype Hc Hn Hspan.
  pose proof (linker_decoration_apart settings st viewIsActive winFrom winTo
                l d (IntervalTree.ofPair (nodeFrom node, nodeTo node)) Hd)
    as Hapart.
  unfold IntervalTree.ofPair in Hapart. simpl in Hapart.
  destruct Hapart; [|lia..].
  unfold Linker.excludedIntervalTree. apply enter_all_elem. right.
  by exists node, excludedType.
Qed.

(** ["see Note here"] with inline code over ["see "]: the node ends where
    the match of ["Note"] starts, and the match is not emitted. *)
Lemma emitted_strictly_apart_from_excluded_witness :
  let st := nodesState "see Note here" 100
              [mkSyntaxNode (str "inline-code-block") 0 4] in
  let l := candidates wholeWords "see Note here" ["Note"] in
  spans l = [(4, 8)%Z]
  ∧ Linker.rangeDecorations wholeWords st true 0 13 l = []
  ∧ ∀ d, d ∈ Linker.rangeDecorations wholeWords st true 0 13 l →
         (decoFrom d ≤ decoTo d)%Z → (4 < decoFrom d ∨ decoTo d < 0)%Z.
Proof.
  intros st l. split; [vm_compute; reflexivity|].
  split; [vm_compute; reflexivity|].
  intros d Hd Hspan.
  apply (emitted_strictly_apart_from_excluded wholeWords st true 0 13 l d
           (mkSyntaxNode (str "inline-code-block") 0 4) (str "code-block"));
    [exact Hd| | | |simpl; lia|exact Hspan].
  - left.
  - vm_compute. right. left.
  - vm_compute. reflexivity.
Defined.

Lemma glossary_tree_subset settings st winFrom winTo iv :
  iv ∈ Glossary.excludedIntervalTree st winFrom winTo →
  iv ∈ Linker.excludedIntervalTree settings st winFrom winTo.
Proof.
  unfold Glossary.excludedIntervalTree, Linker.excludedIntervalTree.
  change (Glossary.enter Glossary.excludedTypes)
    with (Linker.enter Glossary.excludedTypes).
  rewrite !enter_all_elem.
  intros [?|(node & e & Hn & He & Hc & ->)]; [by left|]. right.
  exists node, e. split; [done|]. split; [|done].
  unfold Linker.excludedTypes. apply elem_of_app. left.
  unfold Glossary.excludedTypes in He.
  rewrite !elem_of_cons in He |- *.
  destruct He as [?|[?|[?|He]]]; [tauto..|by apply elem_of_nil in He].
Qed.

(** X10: the linker is at least as strict as the glossary: for the same
    candidates, editor state and window, every range the linker emits is
    one the glossary emits as well. *)
Theorem linker_emits_subset_of_glossary {W} settings st viewIsActive
    winFrom winTo (l : list (Addition W)) (d : Decoration W) :
  d ∈ Linker.rangeDecorations settings st viewIsActive winFrom winTo l →
  d ∈ Glossary.rangeDecorations st winFrom winTo l.
Proof.
  intros Hd.
  apply linker_rangeDecorations_elem in Hd as (a & -> & Ha & Hemit).
  apply linker_emitted_spec in Hemit as (Hsearch & Hcursor & _).
  apply glossary_rangeDecorations_elem. exists a.
  split; [done|]. split; [by rewrite resolveOverlaps_same|].
  apply glossary_emitted_spec. split; [|done].
  apply search_empty_iff. intros iv Hiv.
  apply (proj1 (search_empty_iff _ _) Hsearch).
  by apply glossary_tree_subset.
Qed.

(** ["I love my Notebook today"] with the cursor at the end of the
    line. *)
Lemma linker_emits_subset_of_glossary_witness :
  let st := plainState "I love my Notebook today" 24 in
  let l := candidates subWords "I love my Notebook today" ["Note"; "Notebook"] in
  ∃ d, Linker.rangeDecorations subWords st false 0 24 l = [d]
       ∧ (decoFrom d, decoTo d) = (10, 18)%Z
       ∧ d ∈ Glossary.rangeDecorations st 0 24 l.
Proof.
  intros st l.
  assert (∃ d, Linker.rangeDecorations subWords st false 0 24 l = [d]
               ∧ (decoFrom d, decoTo d) = (10, 18)%Z) as (d & Hd & Hv).
  { eexists. split; vm_compute; reflexivity. }
  exists d. split; [exact Hd|]. split; [exact Hv|].
  apply (linker_emits_subset_of_glossary subWords st false 0 24 l d).
  rewrite Hd. left.
Defined.

(** X11: with the exclusion of the current line switched on and the view
    active, no emitted range lies within the line of the cursor; with the
    view inactive or the setting off, the line plays no role: a resolved
    candidate away from the cursor and from the excluded nodes is emitted
    wherever it lies. *)
Theorem current_line_exclusion {W} settings st viewIsActive winFrom winTo
    (l : list (Addition W)) :
  (viewIsActive = true → Linker.excludeLinksInCurrentLine settings = true →
   ∀ d, d ∈ Linker.rangeDecorations settings st viewIsActive winFrom winTo l →
        ¬ ((lineAt st (selectionMainFrom st)).1 ≤ decoFrom d
           ∧ decoTo d ≤ (lineAt st (selectionMainFrom st)).2)%Z)
  ∧ (viewIsActive = false ∨ Linker.excludeLinksInCurrentLine settings = false →
     ∀ a, a ∈ Linker.resolveOverlaps l →
          IntervalTree.search
            (Linker.excludedIntervalTree settings st winFrom winTo)
            (from a, to a) = [] →
          ¬ (from a ≤ selectionMainFrom st ≤ to a)%Z →
          Linker.decorationOf a
            ∈ Linker.rangeDecorations settings st viewIsActive winFrom winTo l).
Proof.
  split.
  - intros Hactive Hset d Hd Hline.
    apply linker_rangeDecorations_elem in Hd as (a & -> & _ & Hemit).
    apply linker_emitted_spec in Hemit as (_ & _ & [Hoff|Hout]).
    + rewrite Hactive, Hset in Hoff. done.
    + by apply Hout.
  - intros Hoff a Ha Hsearch Hcursor.
    apply linker_rangeDecorations_elem. exists a.
    split; [done|]. split; [done|].
    apply linker_emitted_spec. split; [done|]. split; [done|]. left.
    destruct Hoff as [-> | ->]; [done|]. apply andb_false_r.
Qed.

(** ["I love my Notebook today"], one line, with the cursor at its end
    and the exclusion of the current line switched on. *)
Lemma current_line_exclusion_witness :
  let settings := Linker.mkSettings false false false true false false [] in
  let st := plainState "I love my Notebook today" 24 in
  let l := candidates subWords "I love my Notebook today" ["Note"; "Notebook"] in
  Linker.rangeDecorations settings st true 0 24 l = []
  ∧ (∀ d, d ∈ Linker.rangeDecorations settings st true 0 24 l →
          ¬ (0 ≤ decoFrom d ∧ decoTo d ≤ 24)%Z)
  ∧ ∃ a, Linker.resolveOverlaps l = [a]
         ∧ Linker.decorationOf a
             ∈ Linker.rangeDecorations settings st false 0 24 l.
Proof.
  intros settings st l. split; [vm_compute; reflexivity|]. split.
  - apply (proj1 (current_line_exclusion settings st true 0 24 l));
      reflexivity.
  - assert (∃ a, Linker.resolveOverlaps l = [a] ∧ (from a, to a) = (10, 18)%Z)
      as (a & Hr & Hv).
    { eexists. split; vm_compute; reflexivity. }
    exists a. split; [exact Hr|]. injection Hv as Hf Ht.
    apply (proj2 (current_line_exclusion settings st false 0 24 l)).
    + by left.
    + rewrite Hr. left.
    + reflexivity.
    + simpl. lia.
Defined.

(** ** Further properties of the view-update handler *)

(** X12: [isDescendant] looks at the first [maxDepth] proper ancestors of
    the child and no further: it answers true exactly when the parent is
    one of them. *)
Theorem isDescendant_iff_near_ancestor (app : App)
    (parent child : HTMLElement) (maxDepth : nat) :
  Linker.isDescendant app parent child maxDepth = true ↔
  ∃ k, k < maxDepth ∧ ancestorAt app child k = Some parent.
Proof.
  unfold Linker.isDescendant. revert child.
  induction maxDepth as [|d IH]; intros child.
  - simpl. split.
    + by destruct (parentNode app child).
    + intros (k & Hk & _). lia.
  - simpl. destruct (parentNode app child) as [n|] eqn:Hn.
    + case_bool_decide as Heq.
      * split; [|done]. intros _. exists 0. split; [lia|]. simpl.
        by rewrite Hn, Heq.
      * rewrite IH. split.
        -- intros (k & Hk & Hanc). exists (S k). split; [lia|].
           simpl. by rewrite Hn.
        -- intros (k & Hk & Hanc). destruct k as [|k]; simpl in Hanc.
           ++ rewrite Hn in Hanc. by simplify_eq.
           ++ rewrite Hn in Hanc. simpl in Hanc. exists k. split; [lia|done].
    + split; [done|]. intros (k & _ & Hanc).
      destruct k; simpl in Hanc; by rewrite Hn in Hanc.
Qed.

Section updates.
Context {C : Type} `{PrefixTreeOps C}.

Lemma linker_update_records (app : App) settings
    (this this' : Linker.AutoLinkerPlugin C) (upd : ViewUpdate) force :
  Linker.update app settings this upd force = Done this' →
  Linker.lastCursorPos this' = selectionMainFrom (state (view upd))
  ∧ Linker.lastActiveFile this' = default [] (path <$> getActiveFile app)
  ∧ Linker.lastViewUpdate this' = Some upd.
Proof.
  unfold Linker.update.
  destruct (if Linker.excludeLinksInCurrentLine settings
               || Linker.excludeLinksToOwnNote settings then _ else _)
    as [active domToFile].
  destruct (force || _ || _ || _ || _) eqn:Hchange.
  - destruct (Linker.buildDecorations _ _ _ _ _) as [[c' ds]| |]; simpl;
      [|done..].
    intros ?; simplify_eq. done.
  - intros ?; simplify_eq. simpl.
    rewrite !orb_false_iff in Hchange.
    destruct Hchange as [[[[_ Hcur] _] Hfile] _].
    apply negb_false_iff, bool_decide_eq_true in Hcur, Hfile.
    rewrite Hfile. done.
Qed.

Lemma glossary_update_records (app : App)
    (this this' : Glossary.AutoLinkerPlugin C) (upd : ViewUpdate) :
  Glossary.update app this upd = Done this' →
  Glossary.lastCursorPos this' = selectionMainFrom (state (view upd))
  ∧ Glossary.lastActiveFile this' = default [] (path <$> getActiveFile app).
Proof.
  unfold Glossary.update.
  destruct (_ || _ || _ || _) eqn:Hchange.
  - destruct (Glossary.buildDecorations _ _) as [[c' ds]| |]; simpl;
      [|done..].
    intros ?; simplify_eq. done.
  - intros ?; simplify_eq.
    rewrite !orb_false_iff in Hchange.
    destruct Hchange as [[[Hcur _] Hfile] _].
    apply negb_false_iff, bool_decide_eq_true in Hcur, Hfile.
    rewrite Hfile. done.
Qed.

End updates.

(** X13: whenever [update] returns, the plugin has recorded the cursor of
    the view update and the path of the active file (the empty string when
    no file is active), whether it rebuilt the decorations or not; the
    linker has stored the view update as well. *)
Theorem update_records_cursor_and_file {C : Type} `{PrefixTreeOps C}
    (app : App) settings (upd : ViewUpdate) force :
  (∀ this this' : Linker.AutoLinkerPlugin C,
     Linker.update app settings this upd force = Done this' →
     Linker.lastCursorPos this' = selectionMainFrom (state (view upd))
     ∧ Linker.lastActiveFile this' = default [] (path <$> getActiveFile app)
     ∧ Linker.lastViewUpdate this' = Some upd)
  ∧ (∀ this this' : Glossary.AutoLinkerPlugin C,
       Glossary.update app this upd = Done this' →
       Glossary.lastCursorPos this' = selectionMainFrom (state (view upd))
       ∧ Glossary.lastActiveFile this'
         = default [] (path <$> getActiveFile app)).
Proof.
  split.
  - intros this this'. apply linker_update_records.
  - intros this this'. apply glossary_update_records.
Qed.

(** A forced update of [homePlugin] after the cursor moved to 5. *)
Lemma update_records_cursor_and_file_witness :
  let upd := mkViewUpdate
               (mkEditorView 2 (plainState "see Note here" 5) [(0, 13)%Z])
               false false in
  ∃ this', Linker.update homeApp wholeWords homePlugin upd true = Done this'
           ∧ Linker.lastCursorPos this' = 5%Z
           ∧ Linker.lastActiveFile this' = str "Home.md"
           ∧ decoFrom <$> Linker.decorations this' = []
           ∧ Linker.lastViewUpdate this' = Some upd.
Proof.
  intros upd. eexists. split; [vm_compute; reflexivity|].
  split; [reflexivity|]. split; [reflexivity|]. split; [reflexivity|].
  refine (proj2 (proj2 (proj1 (update_records_cursor_and_file homeApp
                                 wholeWords upd true) homePlugin _ _))).
  vm_compute. reflexivity.
Defined.



(** X15: without an active file the recorded path never equals the active
    one, so every update that returns, forced or not and whatever changed,
    has run the cache update and rebuilt the decorations, and records the
    empty path. *)
Theorem update_without_active_file_rebuilds {C : Type} `{PrefixTreeOps C}
    (app : App) settings (this this' : Linker.AutoLinkerPlugin C)
    (upd : ViewUpdate) force :
  getActiveFile app = None →
  Linker.update app settings this upd force = Done this' →
  Linker.lastActiveFile this' = []
  ∧ ∃ viewIsActive,
      Linker.buildDecorations settings (Linker.viewUpdateDomToFileMap this')
        (updateCache app force (Linker.linkerCache this)) (view upd)
        viewIsActive
      = Done (Linker.linkerCache this', Linker.decorations this').
Proof.
  intros Hnone. unfold Linker.update. rewrite Hnone. simpl.
  destruct (if Linker.excludeLinksInCurrentLine settings
               || Linker.excludeLinksToOwnNote settings then _ else _)
    as [active domToFile].
  rewrite orb_true_r. simpl.
  destruct (Linker.buildDecorations _ _ _ _ _) as [[c' ds]| |] eqn:Hbuild;
    simpl; [|done..].
  intros ?; simplify_eq. simpl. split; [done|]. by exists active.
Qed.

(** [homePlugin] in a workspace without an active file: an unforced
    update with nothing changed rebuilds and finds the note. *)
Lemma update_without_active_file_rebuilds_witness :
  let app := mkApp (parentNode homeApp) None None (vault homeApp) in
  let upd := mkViewUpdate
               (mkEditorView 2 (plainState "see Note here" 0) [(0, 13)%Z])
               false false in
  ∃ this', Linker.update app wholeWords homePlugin upd false = Done this'
           ∧ (λ d, (decoFrom d, decoTo d)) <$> Linker.decorations this'
             = [(4, 8)%Z]
           ∧ Linker.lastActiveFile this' = [].
Proof.
  intros app upd. eexists. split; [vm_compute; reflexivity|].
  split; [reflexivity|].
  refine (proj1 (update_without_active_file_rebuilds app wholeWords
                   homePlugin _ upd false eq_refl _)).
  vm_compute. reflexivity.
Defined.

(** ** The builders return *)

Lemma scanLoop_total {S} (body : nat → jsstring → S → S) text st :
  wf text → ∃ s, scanLoop body text (scanFuel text) 0 st = Done s.
Proof.
  intros Hwf.
  destruct (scanSteps_total text (scanFuel text) 0 Hwf) as (tr & Hrun & _);
    [unfold scanFuel; lia|].
  rewrite scanLoop_steps, Hrun. simpl. eauto.
Qed.

Section builder.
Context {W : Type}.
Implicit Types (b : RangeSetBuilder.t W) (d : Decoration W).

Lemma empty_accepts (bound : Z) :
  (0 ≤ bound)%Z → accepts (RangeSetBuilder.empty (W:=W)) bound.
Proof.
  intros Hb. exists RangeSetBuilder.newLayer, []. split; [done|].
  unfold RangeSetBuilder.newLayer, RangeSetBuilder.Far. simpl.
  split; [lia|]. right. lia.
Qed.

Lemma accepts_mono b (bound bound' : Z) :
  accepts b bound → (bound ≤ bound')%Z → accepts b bound'.
Proof.
  intros (l & next & Hl & Hle & Hlast) Hb. exists l, next.
  split; [done|]. split; [lia|]. destruct Hlast; [by left|right; lia].
Qed.

Lemma add_accepts b d (bound bound' : Z) :
  accepts b bound → (bound ≤ decoFrom d)%Z → (decoTo d ≤ bound')%Z →
  ∃ b', RangeSetBuilder.add b d = Done b'
        ∧ RangeSetBuilder.ranges b' = RangeSetBuilder.ranges b ++ [d]
        ∧ accepts b' bound'.
Proof.
  intros (l & next & Hl & Hle & Hlast) Hfrom Hto.
  unfold RangeSetBuilder.add. rewrite Hl. simpl.
  assert (RangeSetBuilder.addInner l (decoFrom d) (decoTo d)
          = RangeSetBuilder.Added
              (RangeSetBuilder.mkLayer (decoFrom d) (decoTo d) true)) as ->.
  { unfold RangeSetBuilder.addInner, RangeSetBuilder.orSide.
    case_bool_decide as Hzero.
    - destruct Hlast as [-> |?]; [|lia].
      unfold RangeSetBuilder.startSide, RangeSetBuilder.endSide.
      rewrite bool_decide_eq_false_2 by lia.
      by rewrite bool_decide_eq_false_2 by lia.
    - rewrite bool_decide_eq_false_2 by lia.
      by rewrite bool_decide_eq_false_2 by lia. }
  eexists. split; [done|]. split; [done|].
  eexists _, _. split; [done|]. simpl. split; [lia|by left].
Qed.

Lemma addAll_accepts b (ds : list (Decoration W)) (bound bound' : Z) :
  accepts b bound → (bound ≤ bound')%Z →
  StronglySorted (λ a d, (decoTo a ≤ decoFrom d)%Z) ds →
  Forall (λ d, (bound ≤ decoFrom d)%Z ∧ (decoTo d ≤ bound')%Z) ds →
  ∃ b', RangeSetBuilder.addAll b ds = Done b'
        ∧ RangeSetBuilder.ranges b' = RangeSetBuilder.ranges b ++ ds
        ∧ accepts b' bound'.
Proof.
  intros Hb Hbound Hsorted. revert b bound Hb Hbound.
  induction Hsorted as [|d ds Hsorted IH Hd]; intros b bound Hb Hbound Hin.
  - simpl. exists b. rewrite app_nil_r. split; [done|]. split; [done|].
    by eapply accepts_mono.
  - apply Forall_cons in Hin as [[Hfrom Hto] Hin]. simpl.
    destruct (add_accepts b d bound (decoTo d) Hb Hfrom) as (b1 & -> & Hr1 & Hb1);
      [lia|].
    simpl. destruct (IH b1 (decoTo d) Hb1 Hto) as (b' & -> & Hr' & Hb').
    { rewrite Forall_forall in Hd, Hin |- *. intros d' Hd'.
      split; [by apply Hd|]. by apply Hin. }
    exists b'. split; [done|]. split; [|done].
    rewrite Hr', Hr1, <- app_assoc. done.
Qed.

Lemma rangeDecorations_sorted (P : Addition W → Prop)
    `{∀ a, Decision (P a)} (l : list (Addition W)) :
  StronglySorted (λ a d : Decoration W, (decoTo a ≤ decoFrom d)%Z)
    (Linker.decorationOf <$> filter P (Linker.resolveOverlaps l)).
Proof.
  apply (StronglySorted_fmap _
           (λ a b : Addition W, (from a ≤ from b)%Z ∧ (to a ≤ from b)%Z)).
  { by intros a b [_ ?]. }
  apply StronglySorted_filter. apply resolveOverlaps_disjoint.
Qed.

Lemma StronglySorted_app_bound (ds ds' : list (Decoration W)) (bound : Z) :
  StronglySorted (λ a d, (decoTo a ≤ decoFrom d)%Z) ds →
  StronglySorted (λ a d, (decoTo a ≤ decoFrom d)%Z) ds' →
  Forall (λ d, (decoTo d ≤ bound)%Z) ds →
  Forall (λ d, (bound ≤ decoFrom d)%Z) ds' →
  StronglySorted (λ a d, (decoTo a ≤ decoFrom d)%Z) (ds ++ ds').
Proof.
  intros Hs Hs' Hb Hb'. apply StronglySorted_app. split; [|done].
  intros a d Ha Hd. rewrite Forall_forall in Hb, Hb'.
  specialize (Hb a Ha). specialize (Hb' d Hd). lia.
Qed.
End builder.

Section windows.
Context {C : Type} `{PrefixTreeLaws C} `{!PrefixTreeStarts C}.

(** Every candidate of a scan that starts from a [started] cache lies
    inside the window. *)
Lemma linker_scan_in_window settings mappedFile text winFrom (c : C) s :
  started c →
  Linker.scan settings mappedFile text winFrom c = Done s →
  Forall (λ a, (winFrom ≤ from a)%Z
               ∧ (to a ≤ winFrom + Z.of_nat (length text))%Z)
         (Linker.additions s).
Proof.
  intros Hc Hrun. apply scanLoop_Done in Hrun as (tr & Hst & ->).
  apply (foldl_invariant
           (λ s, started (Linker.cache s)
                 ∧ Forall (λ a, (winFrom ≤ from a)%Z
                                ∧ (to a ≤ winFrom + Z.of_nat (length text))%Z)
                     (Linker.additions s))
           (λ ic : nat * jsstring, ic.1 ≤ length text)).
  - split; [done|constructor].
  - apply Forall_forall. intros [i char] Hin.
    destruct (steps_bounds _ _ _ Hst _ _ Hin) as [? _]. simpl. lia.
  - intros s [i char] [Hs Hall] Hi. unfold Linker.scanBody. simpl in *.
    destruct (negb _ || _); [|split; [by apply pushChar_started|done]].
    destruct (getCurrentMatchNodes _ _ _) as [|node nodes] eqn:Hnodes;
      [split; [by apply pushChar_started|done]|].
    simpl. split; [by apply pushChar_started|].
    apply Forall_app. split; [done|]. constructor; [|constructor]. simpl.
    assert (node ∈ getCurrentMatchNodes (Linker.cache s) (Z.of_nat i)
                     (if Linker.excludeLinksToOwnNote settings
                      then mappedFile else None)) as Hnode.
    { rewrite Hnodes. left. }
    pose proof (match_start _ _ _ _ Hs Hnode).
    pose proof (match_end _ _ _ _ Hnode). lia.
Qed.

Lemma glossary_scan_in_window text winFrom (c : C) s :
  started c →
  Glossary.scan text winFrom c = Done s →
  Forall (λ a, (winFrom ≤ from a)%Z
               ∧ (to a ≤ winFrom + Z.of_nat (length text))%Z)
         (Glossary.additions s).
Proof.
  intros Hc Hrun. apply scanLoop_Done in Hrun as (tr & Hst & ->).
  apply (foldl_invariant
           (λ s, started (Glossary.cache s)
                 ∧ Forall (λ a, (winFrom ≤ from a)%Z
                                ∧ (to a ≤ winFrom + Z.of_nat (length text))%Z)
                     (Glossary.additions s))
           (λ ic : nat * jsstring, ic.1 ≤ length text)).
  - split; [done|constructor].
  - apply Forall_forall. intros [i char] Hin.
    destruct (steps_bounds _ _ _ Hst _ _ Hin) as [? _]. simpl. lia.
  - intros s [i char] [Hs Hall] Hi. unfold Glossary.scanBody. simpl in *.
    destruct (checkWordBoundary char);
      [|split; [by apply pushChar_started|done]].
    destruct (getCurrentMatchNodes _ _ _) as [|node nodes] eqn:Hnodes;
      [split; [by apply pushChar_started|done]|].
    simpl. split; [by apply pushChar_started|].
    apply Forall_app. split; [done|]. constructor; [|constructor]. simpl.
    assert (node ∈ getCurrentMatchNodes (Glossary.cache s) (Z.of_nat i) None)
      as Hnode.
    { rewrite Hnodes. left. }
    pose proof (match_start _ _ _ _ Hs Hnode).
    pose proof (match_end _ _ _ _ Hnode). lia.
Qed.

(** One visible range whose text is well-formed is decorated, with
    ranges that lie inside it and follow one another. *)
Lemma linker_decorateRange_total settings v mappedFile viewIsActive
    (c : C) (r : Z * Z) :
  rangeOk (state v) r →
  ∃ c' ds,
    Linker.decorateRange settings v mappedFile viewIsActive c r = Done (c', ds)
    ∧ StronglySorted (λ a d, (decoTo a ≤ decoFrom d)%Z) ds
    ∧ Forall (λ d, (r.1 ≤ decoFrom d)%Z ∧ (decoTo d ≤ r.2)%Z) ds.
Proof.
  destruct r as [f t]. intros (Hwf & Hf & Hlen). simpl in *.
  destruct (scanLoop_total
              (Linker.scanBody settings mappedFile (sliceString (state v) f t) f)
              (sliceString (state v) f t)
              (Linker.mkScanState (reset c) 0 []) Hwf) as [s Hs].
  pose proof (linker_scan_in_window settings mappedFile _ f (reset c) s
                (reset_started c) Hs) as Hin.
  unfold Linker.scan. rewrite Hs. simpl. eexists _, _. split; [done|].
  split; [apply rangeDecorations_sorted|].
  apply Forall_forall. intros d Hd.
  apply linker_rangeDecorations_elem in Hd as (a & -> & Ha & _).
  apply resolveOverlaps_elem in Ha as [Ha _].
  rewrite Forall_forall in Hin. destruct (Hin a Ha). simpl. lia.
Qed.

Lemma glossary_decorateRange_total v (c : C) (r : Z * Z) :
  rangeOk (state v) r →
  ∃ c' ds,
    Glossary.decorateRange v c r = Done (c', ds)
    ∧ StronglySorted (λ a d, (decoTo a ≤ decoFrom d)%Z) ds
    ∧ Forall (λ d, (r.1 ≤ decoFrom d)%Z ∧ (decoTo d ≤ r.2)%Z) ds.
Proof.
  destruct r as [f t]. intros (Hwf & Hf & Hlen). simpl in *.
  destruct (scanLoop_total
              (Glossary.scanBody (sliceString (state v) f t) f)
              (sliceString (state v) f t)
              (Glossary.mkScanState (reset c) 0 []) Hwf) as [s Hs].
  pose proof (glossary_scan_in_window _ f (reset c) s
                (reset_started c) Hs) as Hin.
  unfold Glossary.scan. rewrite Hs. simpl. eexists _, _. split; [done|].
  split; [apply (rangeDecorations_sorted _ (Glossary.additions s))|].
  apply Forall_forall. intros d Hd.
  apply glossary_rangeDecorations_elem in Hd as (a & -> & Ha & _).
  rewrite resolveOverlaps_same in Ha. apply resolveOverlaps_elem in Ha as [Ha _].
  rewrite Forall_forall in Hin. destruct (Hin a Ha). simpl. lia.
Qed.

(** The loop over visible ranges that follow one another: the builder
    takes every range, and holds them in the order of the document. *)
Lemma linker_decorateRanges_total settings v mappedFile viewIsActive
    (ranges : list (Z * Z)) (c : C) b (bound : Z) :
  Forall (rangeOk (state v)) ranges →
  StronglySorted (λ r1 r2 : Z * Z, (r1.2 ≤ r2.1)%Z) ranges →
  Forall (λ r, (bound ≤ r.1)%Z) ranges →
  accepts b bound →
  StronglySorted (λ a d, (decoTo a ≤ decoFrom d)%Z) (RangeSetBuilder.ranges b) →
  Forall (λ d, (decoTo d ≤ bound)%Z) (RangeSetBuilder.ranges b) →
  ∃ c' b',
    Linker.decorateRanges settings v mappedFile viewIsActive c b ranges
    = Done (c', b')
    ∧ StronglySorted (λ a d, (decoTo a ≤ decoFrom d)%Z)
        (RangeSetBuilder.ranges b').
Proof.
  intros Hok Hsorted. revert c b bound.
  induction Hsorted as [|r ranges Hsorted IH Hr];
    intros c b bound Hbound Hb Hbs Hbb.
  - simpl. eauto.
  - apply Forall_cons in Hok as [Hr_ok Hok].
    apply Forall_cons in Hbound as [Hbr Hbound].
    destruct (linker_decorateRange_total settings v mappedFile viewIsActive
                c r Hr_ok) as (c1 & ds & Hrun & Hds & Hin).
    cbn [Linker.decorateRanges]. rewrite Hrun. cbn [obind].
    destruct Hr_ok as (_ & _ & Hlen).
    assert (r.1 ≤ r.2)%Z as Hle by lia.
    destruct (addAll_accepts b ds bound r.2 Hb) as (b1 & -> & Hr1 & Hb1);
      [lia|done| |].
    { eapply Forall_impl; [exact Hin|]. simpl. intros d [? ?]. lia. }
    cbn [obind]. apply (IH Hok c1 b1 r.2); [done|done| |].
    + rewrite Hr1. apply (StronglySorted_app_bound _ _ bound); [done|done|done|].
      eapply Forall_impl; [exact Hin|]. simpl. intros d [? ?]. lia.
    + rewrite Hr1. apply Forall_app. split.
      * eapply Forall_impl; [exact Hbb|]. simpl. intros d ?. lia.
      * eapply Forall_impl; [exact Hin|]. simpl. intros d [? ?]. lia.
Qed.

Lemma glossary_decorateRanges_total v
    (ranges : list (Z * Z)) (c : C) b (bound : Z) :
  Forall (rangeOk (state v)) ranges →
  StronglySorted (λ r1 r2 : Z * Z, (r1.2 ≤ r2.1)%Z) ranges →
  Forall (λ r, (bound ≤ r.1)%Z) ranges →
  accepts b bound →
  StronglySorted (λ a d, (decoTo a ≤ decoFrom d)%Z) (RangeSetBuilder.ranges b) →
  Forall (λ d, (decoTo d ≤ bound)%Z) (RangeSetBuilder.ranges b) →
  ∃ c' b',
    Glossary.decorateRanges v c b ranges = Done (c', b')
    ∧ StronglySorted (λ a d, (decoTo a ≤ decoFrom d)%Z)
        (RangeSetBuilder.ranges b').
Proof.
  intros Hok Hsorted. revert c b bound.
  induction Hsorted as [|r ranges Hsorted IH Hr];
    intros c b bound Hbound Hb Hbs Hbb.
  - simpl. eauto.
  - apply Forall_cons in Hok as [Hr_ok Hok].
    apply Forall_cons in Hbound as [Hbr Hbound].
    destruct (glossary_decorateRange_total v c r Hr_ok)
      as (c1 & ds & Hrun & Hds & Hin).
    cbn [Glossary.decorateRanges]. rewrite Hrun. cbn [obind].
    destruct Hr_ok as (_ & _ & Hlen).
    assert (r.1 ≤ r.2)%Z as Hle by lia.
    destruct (addAll_accepts b ds bound r.2 Hb) as (b1 & -> & Hr1 & Hb1);
      [lia|done| |].
    { eapply Forall_impl; [exact Hin|]. simpl. intros d [? ?]. lia. }
    cbn [obind]. apply (IH Hok c1 b1 r.2); [done|done| |].
    + rewrite Hr1. apply (StronglySorted_app_bound _ _ bound); [done|done|done|].
      eapply Forall_impl; [exact Hin|]. simpl. intros d [? ?]. lia.
    + rewrite Hr1. apply Forall_app. split.
      * eapply Forall_impl; [exact Hbb|]. simpl. intros d ?. lia.
      * eapply Forall_impl; [exact Hin|]. simpl. intros d [? ?]. lia.
Qed.

Lemma linker_buildDecorations_total settings domToFile (c : C) v viewIsActive :
  Forall (rangeOk (state v)) (visibleRanges v) →
  StronglySorted (λ r1 r2 : Z * Z, (r1.2 ≤ r2.1)%Z) (visibleRanges v) →
  ∃ c' ds,
    Linker.buildDecorations settings domToFile c v viewIsActive = Done (c', ds)
    ∧ StronglySorted (λ a d, (decoTo a ≤ decoFrom d)%Z) ds.
Proof.
  intros Hok Hsorted. unfold Linker.buildDecorations.
  destruct (linker_decorateRanges_total settings v
              (mjoin (domToFile !! dom v)) viewIsActive (visibleRanges v) c
              RangeSetBuilder.empty 0 Hok Hsorted)
    as (c' & b' & -> & Hb').
  - eapply Forall_impl; [exact Hok|]. by intros r (_ & ? & _).
  - by apply empty_accepts.
  - constructor.
  - constructor.
  - simpl. eauto.
Qed.

Lemma glossary_buildDecorations_total (c : C) v :
  Forall (rangeOk (state v)) (visibleRanges v) →
  StronglySorted (λ r1 r2 : Z * Z, (r1.2 ≤ r2.1)%Z) (visibleRanges v) →
  ∃ c' ds,
    Glossary.buildDecorations c v = Done (c', ds)
    ∧ StronglySorted (λ a d, (decoTo a ≤ decoFrom d)%Z) ds.
Proof.
  intros Hok Hsorted. unfold Glossary.buildDecorations.
  destruct (glossary_decorateRanges_total v (visibleRanges v) c
              RangeSetBuilder.empty 0 Hok Hsorted)
    as (c' & b' & -> & Hb').
  - eapply Forall_impl; [exact Hok|]. by intros r (_ & ? & _).
  - by apply empty_accepts.
  - constructor.
  - constructor.
  - simpl. eauto.
Qed.
End windows.

Lemma sorted_pairwiseNonOverlapping {W} (ds : list (Decoration W)) :
  StronglySorted (λ a d, (decoTo a ≤ decoFrom d)%Z) ds →
  pairwiseNonOverlapping ds.
Proof.
  intros Hds i j a b Hij Hi Hj [Hab Hba].
  destruct (decide (i < j)) as [Hlt|Hge].
  - pose proof (StronglySorted_lookup _ _ i j a b Hds Hlt Hi Hj) as Hle.
    simpl in Hle. lia.
  - assert (j < i) as Hlt by lia.
    pose proof (StronglySorted_lookup _ _ j i b a Hds Hlt Hj Hi) as Hle.
    simpl in Hle. lia.
Qed.

(** The cache built from the specification starts every match at an
    offset of the text scanned since the last reset. *)
#[global] Instance LinkerCache_starts : PrefixTreeStarts LinkerCache.Cache.
Proof.
  refine (Build_PrefixTreeStarts _ _ cacheStarted _ _ _).
  - intros c. split; [constructor|done].
  - intros c char [Hcur Hoff]. split; simpl; [|lia].
    rewrite Forall_forall in Hcur.
    apply Forall_app. split.
    + apply Forall_forall. intros cur Hin.
      apply list_elem_of_omap in Hin as (cur0 & Hin0 & Hadv).
      destruct (LinkerCache.getChild _ char); [|done].
      simpl in Hadv. simplify_eq. simpl. by apply Hcur.
    + destruct (LinkerCache.getChild _ char); repeat constructor. done.
  - intros c i excluded node [Hcur _] Hin. simpl in Hin.
    unfold LinkerCache.getCurrentMatchNodes in Hin.
    apply list_elem_of_omap in Hin as (m & Hm & Hnode).
    assert (start node = start m) as ->.
    { destruct (filter _ (files m)); [done|]. by simplify_eq. }
    unfold LinkerCache.query in Hm.
    apply list_elem_of_omap in Hm as (cur & Hin & Hm).
    rewrite Forall_forall in Hcur. specialize (Hcur cur Hin).
    destruct (LinkerCache.terminal (LinkerCache.node cur)); [done|].
    by simplify_eq.
Qed.

(** X16: when the visible ranges follow one another in the document,
    start at offsets that are not negative and hold well-formed UTF-16
    text no longer than the range, and the cache reports matches that
    end at the queried offset and start inside the text scanned since
    the last reset, then [buildDecorations] and [update] return: no scan
    runs out of steps and the range builder takes every range, so
    nothing throws, in the linker and in the glossary, with any
    settings and workspace; the ranges built never overlap. *)
Theorem update_returns_on_well_formed_text {C : Type} `{PrefixTreeLaws C}
    `{!PrefixTreeStarts C} (app : App) settings (upd : ViewUpdate) :
  Forall (rangeOk (state (view upd))) (visibleRanges (view upd)) →
  StronglySorted (λ r1 r2 : Z * Z, (r1.2 ≤ r2.1)%Z)
                 (visibleRanges (view upd)) →
  (∀ domToFile (c : C) viewIsActive,
     ∃ c' ds, Linker.buildDecorations settings domToFile c (view upd)
                viewIsActive = Done (c', ds)
              ∧ pairwiseNonOverlapping ds)
  ∧ (∀ (this : Linker.AutoLinkerPlugin C) force,
       ∃ this', Linker.update app settings this upd force = Done this')
  ∧ (∀ c : C,
       ∃ c' ds, Glossary.buildDecorations c (view upd) = Done (c', ds)
                ∧ pairwiseNonOverlapping ds)
  ∧ (∀ this : Glossary.AutoLinkerPlugin C,
       ∃ this', Glossary.update app this upd = Done this').
Proof.
  intros Hok Hsorted. split; [|split; [|split]].
  - intros domToFile c viewIsActive.
    destruct (linker_buildDecorations_total settings domToFile c (view upd)
                viewIsActive Hok Hsorted) as (c' & ds & Hrun & Hds).
    exists c', ds. split; [done|]. by apply sorted_pairwiseNonOverlapping.
  - intros this force. unfold Linker.update.
    destruct (if Linker.excludeLinksInCurrentLine settings
                 || Linker.excludeLinksToOwnNote settings then _ else _)
      as [active domToFile].
    destruct (force || _ || _ || _ || _); [|eauto].
    destruct (linker_buildDecorations_total settings domToFile
                (updateCache app force (Linker.linkerCache this)) (view upd)
                active Hok Hsorted) as (c' & ds & -> & _).
    simpl. eauto.
  - intros c.
    destruct (glossary_buildDecorations_total c (view upd) Hok Hsorted)
      as (c' & ds & Hrun & Hds).
    exists c', ds. split; [done|]. by apply sorted_pairwiseNonOverlapping.
  - intros this. unfold Glossary.update.
    destruct (_ || _ || _ || _); [|eauto].
    destruct (glossary_buildDecorations_total
                (updateCache app false (Glossary.linkerCache this)) (view upd)
                Hok Hsorted) as (c' & ds & -> & _).
    simpl. eauto.
Qed.

(** The document ["Note and Note"] seen through the two visible ranges
    [0..4] and [5..13]: the update returns; with the same two ranges in
    the reverse order the range builder throws. *)
Lemma update_returns_on_well_formed_text_witness :
  let st := plainState "Note and Note" 6 in
  let upd := mkViewUpdate (mkEditorView 2 st [(0, 4); (5, 13)]%Z) true false in
  (∃ this', Linker.update homeApp subWords homePlugin upd false = Done this')
  ∧ Linker.buildDecorations subWords ∅ (LinkerCache.ofVault (vault homeApp))
      (mkEditorView 2 st [(5, 13); (0, 4)]%Z) true
    = Threw.
Proof.
  intros st upd. split; [|vm_compute; reflexivity].
  assert (Forall (rangeOk (state (view upd))) (visibleRanges (view upd)))
    as Hok.
  { repeat constructor; simpl; lia. }
  assert (StronglySorted (λ r1 r2 : Z * Z, (r1.2 ≤ r2.1)%Z)
            (visibleRanges (view upd))) as Hsorted.
  { repeat constructor; simpl; lia. }
  exact (proj1 (proj2 (update_returns_on_well_formed_text homeApp subWords upd
                         Hok Hsorted)) homePlugin false).
Defined.

(** ** The first candidate *)

(** X17: the first candidate of the sorted list, the longest of those
    that start leftmost, always survives overlap resolution; so a scan
    that found candidates never resolves to nothing. *)
Theorem first_sorted_candidate_kept {C : Type} `{PrefixTreeOps C}
    settings mappedFile text winFrom (c : C) s b :
  Linker.scan settings mappedFile text winFrom c = Done s →
  arraySort Linker.compareAdditions (Linker.additions s) !! 0 = Some b →
  b ∈ Linker.resolveOverlaps (Linker.additions s)
  ∧ ∀ a, a ∈ Linker.additions s →
         (from b < from a ∨ (from b = from a ∧ to a ≤ to b))%Z.
Proof.
  intros Hrun Hb. split.
  - apply (resolveOverlaps_kept_iff (Linker.additions s) 0 b); [|done|].
    + rewrite (linker_scan_ids _ _ _ _ _ _ Hrun). apply seq_NoDup.
    + intros i a Hi. lia.
  - intros a Ha. apply sorted_elem_lookup in Ha as [j Hj].
    destruct j as [|j].
    + rewrite Hb in Hj. simplify_eq. lia.
    + apply before_spec.
      apply (sorted_lookup_before (Linker.additions s) 0 (S j)); [lia|done..].
Qed.

(** ["a b c d"] with the notes ["a b"], ["b c"] and ["b c d"]: the match
    of ["a b"] comes first and is kept. *)
Lemma first_sorted_candidate_kept_witness :
  ∃ s b, Linker.scan wholeWords None (str "a b c d") 0
           (LinkerCache.ofVault (note <$> ["a b"; "b c"; "b c d"])) = Done s
         ∧ (from b, to b) = (0, 3)%Z
         ∧ b ∈ Linker.resolveOverlaps (Linker.additions s).
Proof.
  assert (∃ s b,
            Linker.scan wholeWords None (str "a b c d") 0
              (LinkerCache.ofVault (note <$> ["a b"; "b c"; "b c d"])) = Done s
            ∧ arraySort Linker.compareAdditions (Linker.additions s) !! 0
              = Some b
            ∧ (from b, to b) = (0, 3)%Z) as (s & b & Hrun & Hb & Hv).
  { eexists _, _. split; [vm_compute; reflexivity|].
    split; vm_compute; reflexivity. }
  exists s, b. split; [exact Hrun|]. split; [exact Hv|].
  exact (proj1 (first_sorted_candidate_kept wholeWords None (str "a b c d") 0
                  (LinkerCache.ofVault (note <$> ["a b"; "b c"; "b c d"]))
                  s b Hrun Hb)).
Defined.

(** ** The scan reads the window once *)

Lemma unitsAt_take text i first :
  text !! i = Some first →
  unitsAt text i first ++ drop (i + length (unitsAt text i first)) text
  = drop i text.
Proof.
  intros Hi. unfold unitsAt.
  destruct (text !! S i) as [second|] eqn:Hs.
  - destruct (_ && _); simpl.
    + rewrite (drop_S text first i Hi), (drop_S text second (S i) Hs).
      by replace (i + 2) with (S (S i)) by lia.
    + rewrite (drop_S text first i Hi). by replace (i + 1) with (S i) by lia.
  - simpl. rewrite (drop_S text first i Hi). by replace (i + 1) with (S i) by lia.
Qed.

Lemma steps_concat text i tr :
  wf text → steps text i tr → i ≤ length text →
  concat tr.*2 = drop i text ++ newline.
Proof.
  intros Hwf. induction 1 as [|i char tr Hi Hc Htr IH]; intros Hle; [lia|].
  change (concat ((i, char) :: tr).*2) with (char ++ concat tr.*2).
  destruct (scanChar_cases _ _ _ Hwf Hi Hc) as [[-> ->]|(first & Hf & -> & Hle')].
  - inversion Htr; simplify_eq; [|simpl in *; lia].
    simpl. by rewrite drop_all.
  - rewrite (IH Hle'), app_assoc. f_equal. by apply unitsAt_take.
Qed.

(** X18: the scan reads the window exactly once: the characters of its
    iterations, put together in order, are the window text followed by
    the synthetic newline, and each iteration starts at the number of code
    units read before it. *)
Theorem scan_reads_text_once (text : jsstring) :
  wf text →
  ∃ trace,
    scanTrace text = Done trace
    ∧ concat trace.*2 = text ++ newline
    ∧ ∀ k i char, trace !! k = Some (i, char) →
        i = length (concat (take k trace).*2).
Proof.
  intros Hwf.
  destruct (scanSteps_total text (scanFuel text) 0 Hwf) as (tr & Hrun & Hst);
    [unfold scanFuel; lia|].
  exists tr. split; [|split].
  - unfold scanTrace. rewrite scanLoop_steps, Hrun. simpl.
    by rewrite foldl_record.
  - rewrite (steps_concat text 0 tr Hwf Hst) by lia. by rewrite drop_0.
  - assert (∀ i0 tr, steps text i0 tr → ∀ k i char,
              tr !! k = Some (i, char) →
              i = i0 + length (concat (take k tr).*2)) as Hpos.
    { clear. induction 1 as [|i0 char0 tr0 Hi Hc Htr IH]; intros k j c Hk;
        [done|].
      destruct k as [|k].
      - simpl in *. simplify_eq. lia.
      - change (concat (take (S k) ((i0, char0) :: tr0)).*2)
          with (char0 ++ concat (take k tr0).*2).
        rewrite length_app. simpl in Hk. rewrite (IH k j c Hk). lia. }
    intros k i char Hk. by rewrite (Hpos 0 tr Hst k i char Hk).
Qed.

(** ["a"], a surrogate pair and a lone high surrogate. *)
Lemma scan_reads_text_once_witness :
  ∃ trace,
    scanTrace [97; 0xD83D; 0xDE00; 0xD83D]%Z = Done trace
    ∧ concat trace.*2 = [97; 0xD83D; 0xDE00; 0xD83D; 10]%Z.
Proof.
  destruct (scan_reads_text_once [97; 0xD83D; 0xDE00; 0xD83D]%Z)
    as (trace & Hrun & Hconcat & _).
  - unfold wf. repeat constructor; lia.
  - exists trace. split; [exact Hrun|exact Hconcat].
Defined.

(** ** The widgets *)

Lemma linker_scan_whole_words {C : Type} `{PrefixTreeOps C}
    settings mappedFile text winFrom (c : C) s :
  Linker.matchOnlyWholeWords settings = true →
  Linker.scan settings mappedFile text winFrom c = Done s →
  Forall (λ a, Linker.isSubWord (widget a) = false) (Linker.additions s).
Proof.
  intros Hww Hrun. apply scanLoop_Done in Hrun as (tr & _ & ->).
  apply (foldl_invariant (λ s, Forall _ (Linker.additions s)) (λ _, True));
    [constructor|by apply Forall_true|].
  intros s [i char] Hs _. unfold Linker.scanBody. simpl.
  rewrite Hww. simpl.
  destruct (checkWordBoundary char) eqn:Hb; [|done].
  destruct (getCurrentMatchNodes _ _ _) as [|node nodes]; [done|]. simpl.
  apply Forall_app. split; [done|]. constructor; [|constructor]. done.
Qed.

(** X19: the span built for a widget holds the link first, with the
    matched text as its text and as its [origin-text] attribute, and
    after it the suffix icon exactly when the suffix is not empty and the
    match is not a sub-word match whose suffix is suppressed.  When only
    whole words are matched, no candidate of a scan is a sub-word match,
    so with a non-empty suffix every widget shows the icon. *)
Theorem widget_suffix_icon {C : Type} `{PrefixTreeOps C}
    settings (w : Linker.LiveLinkWidget) :
  (∃ link,
     childNodes (Linker.toDOM settings w) !! 0 = Some link
     ∧ tagName link = str "a"
     ∧ textContent link = Linker.text w
     ∧ (str "origin-text", Linker.text w) ∈ attributes link
     ∧ (∀ icon, childNodes (Linker.toDOM settings w) !! 1 = Some icon →
                icon = mkElement (str "sup") [str "linker-suffix-icon"] []
                         (Linker.glossarySuffix settings) [])
     ∧ (length (childNodes (Linker.toDOM settings w)) = 2 ↔
        Linker.glossarySuffix settings ≠ []
        ∧ (Linker.isSubWord w = false
           ∨ Linker.suppressSuffixForSubWords settings = false)))
  ∧ (∀ mappedFile text winFrom (c : C) s a,
       Linker.matchOnlyWholeWords settings = true →
       Linker.glossarySuffix settings ≠ [] →
       Linker.scan settings mappedFile text winFrom c = Done s →
       a ∈ Linker.additions s →
       length (childNodes (Linker.toDOM settings (widget a))) = 2).
Proof.
  assert (∀ w, length (childNodes (Linker.toDOM settings w)) = 2 ↔
               Linker.glossarySuffix settings ≠ []
               ∧ (Linker.isSubWord w = false
                  ∨ Linker.suppressSuffixForSubWords settings = false))
    as Hicon.
  { intros w'. unfold Linker.toDOM, Linker.createInternalLinkSpan. simpl.
    destruct (Linker.glossarySuffix settings) as [|u suffix] eqn:Hsuffix.
    - simpl. split; [done|]. by intros [? _].
    - rewrite bool_decide_eq_true_2 by (simpl; lia).
      destruct (Linker.isSubWord w'), (Linker.suppressSuffixForSubWords settings);
        simpl; split; try done; try (intros [_ [?|?]]; done);
        intros _; split; auto. }
  split.
  - eexists. split; [reflexivity|]. split; [reflexivity|].
    split; [reflexivity|]. split; [|split; [|apply Hicon]].
    + simpl. rewrite !elem_of_cons. tauto.
    + intros icon. unfold Linker.toDOM, Linker.createInternalLinkSpan. simpl.
      case_bool_decide; [|done].
      destruct (negb _ || negb _); [|done]. simpl. by intros ?; simplify_eq.
  - intros mappedFile text winFrom c s a Hww Hsuffix Hrun Ha.
    apply Hicon. split; [done|]. left.
    pose proof (linker_scan_whole_words _ _ _ _ _ _ Hww Hrun) as Hall.
    rewrite Forall_forall in Hall. by apply Hall.
Qed.

(** ["see Note here"] with the note ["Note"], whole words only, a link
    sign as the suffix and the suppression for sub-word matches on. *)
Lemma widget_suffix_icon_witness :
  let settings := Linker.mkSettings true true false false false false
                    [0xD83D; 0xDD17]%Z in
  ∃ s a, Linker.scan settings None (str "see Note here") 0
           (LinkerCache.ofVault [note "Note"]) = Done s
         ∧ Linker.additions s = [a]
         ∧ length (childNodes (Linker.toDOM settings (widget a))) = 2.
Proof.
  intros settings.
  assert (∃ s a, Linker.scan settings None (str "see Note here") 0
                   (LinkerCache.ofVault [note "Note"]) = Done s
                 ∧ Linker.additions s = [a]) as (s & a & Hrun & Hs).
  { eexists _, _. split; vm_compute; reflexivity. }
  exists s, a. split; [exact Hrun|]. split; [exact Hs|].
  apply (proj2 (widget_suffix_icon settings (widget a)) None
           (str "see Note here") 0%Z (LinkerCache.ofVault [note "Note"]) s a);
    [reflexivity|discriminate|exact Hrun|rewrite Hs; left].
Defined.

(** ** Construction and external updates *)

(** X20: the callback for external updates acts only once a view update
    has been stored: on a freshly constructed plugin it changes nothing;
    after an update that returned it is the forced update with the stored
    view update, which always runs the forced cache update and rebuilds
    the decorations from it. *)
Theorem external_update_after_first_view_update {C : Type} `{PrefixTreeOps C}
    (app : App) settings :
  (∀ (c : C) v p,
     Linker.construct settings c v = Done p →
     Linker.externalUpdate app settings p = Done p)
  ∧ (∀ (this p : Linker.AutoLinkerPlugin C) upd force,
       Linker.update app settings this upd force = Done p →
       Linker.externalUpdate app settings p
       = Linker.update app settings p upd true)
  ∧ (∀ (p p' : Linker.AutoLinkerPlugin C) upd,
       Linker.lastViewUpdate p = Some upd →
       Linker.externalUpdate app settings p = Done p' →
       ∃ viewIsActive,
         Linker.buildDecorations settings (Linker.viewUpdateDomToFileMap p')
           (updateCache app true (Linker.linkerCache p)) (view upd)
           viewIsActive
         = Done (Linker.linkerCache p', Linker.decorations p')).
Proof.
  split; [|split].
  - intros c v p. unfold Linker.construct.
    destruct (Linker.buildDecorations _ _ _ _ _) as [[c' ds]| |]; simpl;
      [|done..].
    intros ?; simplify_eq. done.
  - intros this p upd force Hrun.
    destruct (linker_update_records _ _ _ _ _ _ Hrun) as (_ & _ & Hupd).
    unfold Linker.externalUpdate. by rewrite Hupd.
  - intros p p' upd Hupd. unfold Linker.externalUpdate. rewrite Hupd.
    unfold Linker.update.
    destruct (if Linker.excludeLinksInCurrentLine settings
                 || Linker.excludeLinksToOwnNote settings then _ else _)
      as [active domToFile].
    simpl.
    destruct (Linker.buildDecorations _ _ _ _ _) as [[c' ds]| |] eqn:Hbuild;
      simpl; [|done..].
    intros ?; simplify_eq. simpl. by exists active.
Qed.

(** A plugin constructed on ["see Note here"] with a cache built before
    the note ["Note"] existed: the callback changes nothing until a view
    update has been seen; after one it finds the note. *)
Lemma external_update_after_first_view_update_witness :
  let c := LinkerCache.notifyChanged (LinkerCache.ofVault [note "Home"]) in
  ∃ p p1 p2,
    Linker.construct wholeWords c (view homeUpdate) = Done p
    ∧ Linker.decorations p = []
    ∧ Linker.externalUpdate homeApp wholeWords p = Done p
    ∧ Linker.update homeApp wholeWords p homeUpdate false = Done p1
    ∧ Linker.externalUpdate homeApp wholeWords p1 = Done p2
    ∧ (λ d, (decoFrom d, decoTo d)) <$> Linker.decorations p2 = [(4, 8)%Z].
Proof.
  intros c.
  assert (∃ p, Linker.construct wholeWords c (view homeUpdate) = Done p
               ∧ Linker.decorations p = []) as (p & Hp & Hds).
  { eexists. split; vm_compute; reflexivity. }
  assert (∃ p1, Linker.update homeApp wholeWords p homeUpdate false = Done p1)
    as [p1 Hp1].
  { apply (f_equal (λ o, match o with Done x => Some x | _ => None end)) in Hp.
    vm_compute in Hp. injection Hp as <-. eexists. vm_compute. reflexivity. }
  destruct (external_update_after_first_view_update homeApp wholeWords)
    as (Hfresh & Hforced & _).
  assert (∃ p2, Linker.update homeApp wholeWords p1 homeUpdate true = Done p2
                ∧ (λ d, (decoFrom d, decoTo d)) <$> Linker.decorations p2
                  = [(4, 8)%Z]) as (p2 & Hp2 & Hds2).
  { apply (f_equal (λ o, match o with Done x => Some x | _ => None end)) in Hp.
    vm_compute in Hp. injection Hp as <-.
    apply (f_equal (λ o, match o with Done x => Some x | _ => None end)) in Hp1.
    vm_compute in Hp1. injection Hp1 as <-.
    eexists. split; vm_compute; reflexivity. }
  exists p, p1, p2. split; [exact Hp|]. split; [exact Hds|].
  split; [exact (Hfresh c (view homeUpdate) p Hp)|].
  split; [exact Hp1|]. split; [|exact Hds2].
  rewrite (Hforced p p1 homeUpdate false Hp1). exact Hp2.
Defined.

(** X21: the link that the glossary builds for a candidate of a scan is
    the only child of its span; its text is the matched slice of the
    window followed by the suffix, and its [href] is the path of the
    candidate's file, or empty when the match carries no file. *)
Theorem glossary_link_text_and_href {C : Type} `{PrefixTreeOps C}
    (gsettings : Glossary.GlossaryLinkerPluginSettings)
    text winFrom (c : C) s a :
  Glossary.scan text winFrom c = Done s →
  a ∈ Glossary.additions s →
  ∃ link,
    childNodes (Glossary.toDOM gsettings (widget a)) = [link]
    ∧ textContent link
      = slice text (from a - winFrom) (to a - winFrom)
        ++ Glossary.glossarySuffix gsettings
    ∧ (str "href",
       match Glossary.linkFile (widget a) with
       | Some f => path f
       | None => []
       end) ∈ attributes link.
Proof.
  intros Hrun Ha.
  pose proof (glossary_scan_nodes _ _ _ _ Hrun) as Hall.
  rewrite Forall_forall in Hall.
  destruct (Hall a Ha) as (node & Hf & Ht & Htext & _).
  eexists. split; [reflexivity|]. split.
  - simpl. rewrite Htext, Hf, Ht. do 2 f_equal; lia.
  - simpl. left.
Qed.

(** ["Notes on a Note"] with the note ["Note"] and the suffix ["*"]. *)
Lemma glossary_link_text_and_href_witness :
  ∃ s a link,
    Glossary.scan (str "Notes on a Note") 0 (LinkerCache.ofVault [note "Note"])
    = Done s
    ∧ Glossary.additions s = [a]
    ∧ childNodes (Glossary.toDOM (Glossary.mkSettings (str "*")) (widget a))
      = [link]
    ∧ textContent link = str "Note*".
Proof.
  assert (∃ s a, Glossary.scan (str "Notes on a Note") 0
                   (LinkerCache.ofVault [note "Note"]) = Done s
                 ∧ Glossary.additions s = [a]
                 ∧ (from a, to a) = (11, 15)%Z) as (s & a & Hrun & Hs & Hv).
  { eexists _, _. split; [vm_compute; reflexivity|].
    split; vm_compute; reflexivity. }
  assert (a ∈ Glossary.additions s) as Ha by (rewrite Hs; left).
  destruct (glossary_link_text_and_href (Glossary.mkSettings (str "*"))
              (str "Notes on a Note") 0 (LinkerCache.ofVault [note "Note"])
              s a Hrun Ha) as (link & Hchildren & Htext & _).
  exists s, a, link. split; [exact Hrun|]. split; [exact Hs|].
  split; [exact Hchildren|].
  injection Hv as Hf Ht. rewrite Hf, Ht in Htext. exact Htext.
Defined.
